(** * A task store over PostgreSQL: the [storage] package

    The package under study is a thin data-access layer: every exported
    method of [Storage] sends one fixed SQL text with positional arguments
    to a connection pool and maps the answer to Go values.  The development
    has four layers:

    - [Sql]: the fragment of SQL the package uses (values, three-valued
      predicates, the statements) with a printer back to text;
    - [Pg]: the relational store (the three tables, the id sequence) and
      the execution of a statement on it;
    - [pgx]: the driver as the package sees it (a pool whose round trips can
      fail, result sets, [Scan] into Go variables);
    - [storage]: the Go package itself, method by method.

    Go's [int] and [int64] are modelled by [Z]: the package performs no
    arithmetic on them, it only carries them between the caller and the
    store.  Where a statement itself fixes the type of a placeholder (the
    literal in [$1 = 0]), the driver's refusal of an integer outside that
    type is part of the round trip.  A Go [error] is an [option error], [None] being [nil]; a nil
    slice and an empty slice are both the empty list. *)

From Stdlib Require Import ZArith List String Ascii Bool Lia.
From Stdlib Require Import Sorting.Sorted Sorting.Permutation.
From Stdlib Require Import DecimalString.
Import ListNotations.

Local Open Scope string_scope.
Local Open Scope Z_scope.

(** ** The SQL fragment *)

Module Sql.

(** Values exchanged with the store.  [VNull] is SQL's NULL, which is also
    the third truth value of its logic. *)
Inductive sqlval : Type :=
| VNull
| VInt (z : Z)
| VText (s : string)
| VBool (b : bool).

(** Scalar and boolean expressions: [$n], integer literals, column
    references, [=], [OR], [AND]. *)
Inductive expr : Type :=
| Param (n : nat)
| IntLit (z : Z)
| Col (c : string)
| Eq (a b : expr)
| Or (a b : expr)
| And (a b : expr).

(** A row seen from an expression: the value of each column name. *)
Definition env : Type := string -> sqlval.

Definition no_row : env := fun _ => VNull.

(** [a = b]: NULL if either side is NULL.  The package only ever compares
    integers with integers and text with text; a comparison across types,
    which the store would refuse to plan, is given the value NULL. *)
Definition sql_eq (a b : sqlval) : sqlval :=
  match a, b with
  | VInt x, VInt y => VBool (x =? y)
  | VText x, VText y => VBool (String.eqb x y)
  | VBool x, VBool y => VBool (Bool.eqb x y)
  | _, _ => VNull
  end.

Definition sql_or (a b : sqlval) : sqlval :=
  match a, b with
  | VBool true, _ => VBool true
  | _, VBool true => VBool true
  | VBool false, VBool false => VBool false
  | _, _ => VNull
  end.

Definition sql_and (a b : sqlval) : sqlval :=
  match a, b with
  | VBool false, _ => VBool false
  | _, VBool false => VBool false
  | VBool true, VBool true => VBool true
  | _, _ => VNull
  end.

(** [$n] is the n-th bound argument, counted from 1. *)
Definition param (args : list sqlval) (n : nat) : sqlval :=
  nth (Nat.pred n) args VNull.

Fixpoint eval (args : list sqlval) (r : env) (e : expr) : sqlval :=
  match e with
  | Param n => param args n
  | IntLit z => VInt z
  | Col c => r c
  | Eq a b => sql_eq (eval args r a) (eval args r b)
  | Or a b => sql_or (eval args r a) (eval args r b)
  | And a b => sql_and (eval args r a) (eval args r b)
  end.

(** A row passes a WHERE or ON clause when the clause is true, not when it
    is false or NULL. *)
Definition holds (v : sqlval) : bool :=
  match v with
  | VBool true => true
  | _ => false
  end.

Definition satisfies (args : list sqlval) (w : expr) (r : env) : bool :=
  holds (eval args r w).

(** ORDER BY on a column, ascending: integers by value, NULLs last. *)
Definition sql_le (a b : sqlval) : bool :=
  match a, b with
  | VInt x, VInt y => x <=? y
  | _, VNull => true
  | VNull, _ => false
  | _, _ => true
  end.

(** The statements.  The schema is fixed (tables [tasks], [labels],
    [task_labels]), so a FROM clause is either [tasks] alone or the two
    inner joins that reach [labels]. *)
Inductive from_clause : Type :=
| FromTasks
| FromTasksJoinLabels (on_tl on_l : expr).

Record select : Type := {
  columns : list string;
  from : from_clause;
  where_ : expr;
  order_by : option string
}.

Inductive stmt : Type :=
| Select (q : select)
| InsertTasks (cols : list string) (vals : list expr) (returning : string)
| UpdateTasks (sets : list (string * expr)) (w : expr)
| DeleteTasks (w : expr).

(** *** The types the server gives to parameters

    A placeholder has no type of its own; the server infers one when it
    prepares the statement.  Compared with an integer literal, a
    placeholder takes the type of the literal: [integer] (four bytes) when
    the literal fits, [bigint] otherwise.  So [$1 = 0] makes [$1] an
    [integer], whatever else [$1] is compared with.  Compared with or
    assigned to a column only, a placeholder takes the type of the column,
    which the schema decides and this fragment does not bound. *)
Inductive int_type : Type :=
| Int4
| Int8.

Definition int_min (ty : int_type) : Z :=
  match ty with
  | Int4 => -2147483648
  | Int8 => -9223372036854775808
  end.

Definition int_max (ty : int_type) : Z :=
  match ty with
  | Int4 => 2147483647
  | Int8 => 9223372036854775807
  end.

Definition fits (ty : int_type) (z : Z) : bool :=
  (int_min ty <=? z) && (z <=? int_max ty).

Definition literal_type (z : Z) : int_type :=
  if fits Int4 z then Int4 else Int8.

Fixpoint literal_params (e : expr) : list (nat * int_type) :=
  match e with
  | Eq (Param n) (IntLit z) => [(n, literal_type z)]
  | Eq (IntLit z) (Param n) => [(n, literal_type z)]
  | Eq a b => literal_params a ++ literal_params b
  | Or a b => literal_params a ++ literal_params b
  | And a b => literal_params a ++ literal_params b
  | _ => []
  end.

(** The placeholders of a statement that a literal gives a type to. *)
Definition param_types (s : stmt) : list (nat * int_type) :=
  match s with
  | Select q =>
      match from q with
      | FromTasks => []
      | FromTasksJoinLabels on_tl on_l =>
          literal_params on_tl ++ literal_params on_l
      end ++ literal_params (where_ q)
  | InsertTasks cols vals returning => flat_map literal_params vals
  | UpdateTasks sets w =>
      flat_map (fun a => literal_params (snd a)) sets ++ literal_params w
  | DeleteTasks w => literal_params w
  end.

(** *** Printing statements back to text *)

Definition show_nat (n : nat) : string :=
  NilZero.string_of_uint (Nat.to_uint n).

Definition show_Z (z : Z) : string :=
  NilZero.string_of_int (Z.to_int z).

Fixpoint render_expr (e : expr) : string :=
  match e with
  | Param n => "$" ++ show_nat n
  | IntLit z => show_Z z
  | Col c => c
  | Eq a b => render_expr a ++ " = " ++ render_expr b
  | Or a b => "(" ++ render_expr a ++ " OR " ++ render_expr b ++ ")"
  | And a b => render_expr a ++ " AND " ++ render_expr b
  end.

Definition commas (l : list string) : string := String.concat ", " l.

Definition render_from (f : from_clause) : string :=
  match f with
  | FromTasks => "tasks"
  | FromTasksJoinLabels on_tl on_l =>
      "tasks t INNER JOIN task_labels tl ON " ++ render_expr on_tl ++
      " INNER JOIN labels l ON " ++ render_expr on_l
  end.

Definition render_set (a : string * expr) : string :=
  fst a ++ " = " ++ render_expr (snd a).

Definition render (s : stmt) : string :=
  match s with
  | Select q =>
      "SELECT " ++ commas (columns q) ++ " FROM " ++ render_from (from q) ++
      " WHERE " ++ render_expr (where_ q) ++
      match order_by q with
      | Some c => " ORDER BY " ++ c
      | None => ""
      end ++ ";"
  | InsertTasks cols vals returning =>
      "INSERT INTO tasks (" ++ commas cols ++ ") VALUES (" ++
      commas (map render_expr vals) ++ ") RETURNING " ++ returning ++ ";"
  | UpdateTasks sets w =>
      "UPDATE tasks SET " ++ commas (map render_set sets) ++
      " WHERE " ++ render_expr w ++ ";"
  | DeleteTasks w => "DELETE FROM tasks WHERE " ++ render_expr w ++ ";"
  end.

(** Layout is not part of a statement: runs of blanks, tabs and line breaks
    count as one blank, and those at either end are dropped. *)
Definition is_space (c : ascii) : bool :=
  (Ascii.eqb c " " || Ascii.eqb c "009" || Ascii.eqb c "010" ||
   Ascii.eqb c "013")%bool.

Fixpoint squeeze (gap started : bool) (s : string) : string :=
  match s with
  | EmptyString => EmptyString
  | String c s' =>
      if is_space c then squeeze started started s'
      else if gap then String " " (String c (squeeze false true s'))
      else String c (squeeze false true s')
  end.

Definition layout_free (s : string) : string := squeeze false false s.

End Sql.

(** ** The relational store *)

Module Pg.
Import Sql.

(** Modelled from the spec: the schema, which the repository does not
    contain.  Section 6 of the specification gives it as
    [tasks(id PK auto, opened, closed, author_id, assigned_id, title,
    content)], [labels(id PK, label TEXT unique)] and
    [task_labels(task_id FK to tasks.id, label_id FK to labels.id)].
    The foreign keys are not enforced here: the specification names no
    action for them on DELETE and no relation of users, and a statement
    they would refuse is one the store turns down.  A primary key cannot
    be NULL, so
    [tasks.id] is a [Z]; the other columns of [tasks] are nullable, [None]
    being NULL.  Rows of [labels] and [task_labels] with a NULL in a column
    can satisfy neither join condition nor the label filter, so these
    tables are kept to their NULL-free rows. *)
Record TaskRow : Type := {
  c_id : Z;
  c_opened : option Z;
  c_closed : option Z;
  c_author_id : option Z;
  c_assigned_id : option Z;
  c_title : option string;
  c_content : option string
}.

Record LabelRow : Type := {
  l_id : Z;
  l_label : string
}.

Record TaskLabelRow : Type := {
  tl_task_id : Z;
  tl_label_id : Z
}.

(** Modelled from the spec: the values the schema gives to the columns an
    INSERT leaves out ("schema defaults", section 4.3).  They are part of
    the state because a default may depend on the time of the insert. *)
Record Defaults : Type := {
  d_opened : option Z;
  d_closed : option Z;
  d_author_id : option Z;
  d_assigned_id : option Z
}.

(** Modelled from the spec: the state of the store.  The tables hold their
    rows in storage order.  [tasks_id_seq] is the value the sequence
    behind the auto-generated [tasks.id] hands out next. *)
Record Database : Type := {
  tasks : list TaskRow;
  labels : list LabelRow;
  task_labels : list TaskLabelRow;
  tasks_id_seq : Z;
  defaults : Defaults
}.

Definition of_int (o : option Z) : sqlval :=
  match o with
  | Some z => VInt z
  | None => VNull
  end.

Definition of_text (o : option string) : sqlval :=
  match o with
  | Some s => VText s
  | None => VNull
  end.

(** Columns of a [tasks] row, by name. *)
Definition task_env (r : TaskRow) : env := fun c =>
  if String.eqb c "id" then VInt (c_id r)
  else if String.eqb c "opened" then of_int (c_opened r)
  else if String.eqb c "closed" then of_int (c_closed r)
  else if String.eqb c "author_id" then of_int (c_author_id r)
  else if String.eqb c "assigned_id" then of_int (c_assigned_id r)
  else if String.eqb c "title" then of_text (c_title r)
  else if String.eqb c "content" then of_text (c_content r)
  else VNull.

(** Columns of a row of [tasks t JOIN task_labels tl JOIN labels l], by
    qualified name. *)
Definition joined : Type := (TaskRow * TaskLabelRow * LabelRow)%type.

Definition join_task (j : joined) : TaskRow := fst (fst j).

Definition join_env (j : joined) : env := fun c =>
  let '(t, tl, l) := j in
  if String.eqb c "t.id" then VInt (c_id t)
  else if String.eqb c "t.opened" then of_int (c_opened t)
  else if String.eqb c "t.closed" then of_int (c_closed t)
  else if String.eqb c "t.author_id" then of_int (c_author_id t)
  else if String.eqb c "t.assigned_id" then of_int (c_assigned_id t)
  else if String.eqb c "t.title" then of_text (c_title t)
  else if String.eqb c "t.content" then of_text (c_content t)
  else if String.eqb c "tl.task_id" then VInt (tl_task_id tl)
  else if String.eqb c "tl.label_id" then VInt (tl_label_id tl)
  else if String.eqb c "l.id" then VInt (l_id l)
  else if String.eqb c "l.label" then VText (l_label l)
  else VNull.

(** Assignment to a column of [tasks] by name, as INSERT and UPDATE do it.
    [None] is the store refusing the value: wrong type or unknown column.
    The package never assigns [id], which only the sequence sets, so [id]
    is not assignable in this fragment. *)
Definition to_int (v : sqlval) : option (option Z) :=
  match v with
  | VInt z => Some (Some z)
  | VNull => Some None
  | _ => None
  end.

Definition to_text (v : sqlval) : option (option string) :=
  match v with
  | VText s => Some (Some s)
  | VNull => Some None
  | _ => None
  end.

Definition set_col (c : string) (v : sqlval) (r : TaskRow)
  : option TaskRow :=
  if String.eqb c "opened" then
    option_map (fun x =>
      {| c_id := c_id r; c_opened := x; c_closed := c_closed r;
         c_author_id := c_author_id r; c_assigned_id := c_assigned_id r;
         c_title := c_title r; c_content := c_content r |}) (to_int v)
  else if String.eqb c "closed" then
    option_map (fun x =>
      {| c_id := c_id r; c_opened := c_opened r; c_closed := x;
         c_author_id := c_author_id r; c_assigned_id := c_assigned_id r;
         c_title := c_title r; c_content := c_content r |}) (to_int v)
  else if String.eqb c "author_id" then
    option_map (fun x =>
      {| c_id := c_id r; c_opened := c_opened r; c_closed := c_closed r;
         c_author_id := x; c_assigned_id := c_assigned_id r;
         c_title := c_title r; c_content := c_content r |}) (to_int v)
  else if String.eqb c "assigned_id" then
    option_map (fun x =>
      {| c_id := c_id r; c_opened := c_opened r; c_closed := c_closed r;
         c_author_id := c_author_id r; c_assigned_id := x;
         c_title := c_title r; c_content := c_content r |}) (to_int v)
  else if String.eqb c "title" then
    option_map (fun x =>
      {| c_id := c_id r; c_opened := c_opened r; c_closed := c_closed r;
         c_author_id := c_author_id r; c_assigned_id := c_assigned_id r;
         c_title := x; c_content := c_content r |}) (to_text v)
  else if String.eqb c "content" then
    option_map (fun x =>
      {| c_id := c_id r; c_opened := c_opened r; c_closed := c_closed r;
         c_author_id := c_author_id r; c_assigned_id := c_assigned_id r;
         c_title := c_title r; c_content := x |}) (to_text v)
  else None.

(** The assignments of a SET list, or of an INSERT's column list, applied
    from left to right.  Each right-hand side is evaluated on the row as it
    was before the statement. *)
Fixpoint assign (args : list sqlval) (old : env)
    (sets : list (string * expr)) (r : TaskRow) : option TaskRow :=
  match sets with
  | [] => Some r
  | (c, e) :: rest =>
      match set_col c (eval args old e) r with
      | Some r' => assign args old rest r'
      | None => None
      end
  end.

(** Stable insertion sort on a key, for ORDER BY.  The store promises no
    order among rows with equal keys; keeping the storage order is one of
    the orders it may choose. *)
Fixpoint insert_by {A : Type} (key : A -> sqlval) (x : A) (l : list A)
  : list A :=
  match l with
  | [] => [x]
  | y :: l' =>
      if sql_le (key x) (key y) then x :: y :: l'
      else y :: insert_by key x l'
  end.

Fixpoint sort_by {A : Type} (key : A -> sqlval) (l : list A) : list A :=
  match l with
  | [] => []
  | x :: l' => insert_by key x (sort_by key l')
  end.

Definition ordered {A : Type} (view : A -> env) (o : option string)
    (l : list A) : list A :=
  match o with
  | Some c => sort_by (fun r => view r c) l
  | None => l
  end.

(** The select list: one value per named column. *)
Definition project (cols : list string) (r : env) : list sqlval :=
  map r cols.

(** The rows of the two joins, before the ON conditions: every task with
    every association row with every label, in nested-loop order. *)
Definition cross (db : Database) : list joined :=
  flat_map (fun t =>
    flat_map (fun tl =>
      map (fun l => (t, tl, l)) (labels db)) (task_labels db)) (tasks db).

Definition run_select (q : select) (args : list sqlval) (db : Database)
  : list (list sqlval) :=
  match from q with
  | FromTasks =>
      map (fun r => project (columns q) (task_env r))
        (ordered task_env (order_by q)
           (filter (fun r => satisfies args (where_ q) (task_env r))
              (tasks db)))
  | FromTasksJoinLabels on_tl on_l =>
      map (fun j => project (columns q) (join_env j))
        (ordered join_env (order_by q)
           (filter (fun j =>
                      satisfies args on_tl (join_env j) &&
                      satisfies args on_l (join_env j) &&
                      satisfies args (where_ q) (join_env j))%bool
              (cross db)))
  end.

(** What a statement leaves behind: the rows it returns and the number of
    rows it touched (the command tag), or the reason it was refused. *)
Inductive result : Type :=
| Done (rows : list (list sqlval)) (affected : nat)
| Refused (msg : string).

Definition with_tasks (db : Database) (ts : list TaskRow) : Database :=
  {| tasks := ts; labels := labels db; task_labels := task_labels db;
     tasks_id_seq := tasks_id_seq db; defaults := defaults db |}.

Definition with_seq (db : Database) (n : Z) : Database :=
  {| tasks := tasks db; labels := labels db;
     task_labels := task_labels db;
     tasks_id_seq := n; defaults := defaults db |}.

(** The row an INSERT starts from: a fresh id from the sequence, the
    schema defaults, NULL for the columns without a default. *)
Definition blank_row (db : Database) : TaskRow :=
  {| c_id := tasks_id_seq db;
     c_opened := d_opened (defaults db);
     c_closed := d_closed (defaults db);
     c_author_id := d_author_id (defaults db);
     c_assigned_id := d_assigned_id (defaults db);
     c_title := None; c_content := None |}.

Definition id_taken (db : Database) (i : Z) : bool :=
  existsb (fun r => c_id r =? i) (tasks db).

(** UPDATE rewrites each row that passes the WHERE clause; one refused
    assignment refuses the statement. *)
Fixpoint update_rows (args : list sqlval) (sets : list (string * expr))
    (w : expr) (rows : list TaskRow) : option (list TaskRow * nat) :=
  match rows with
  | [] => Some ([], 0%nat)
  | r :: rest =>
      match update_rows args sets w rest with
      | None => None
      | Some (rest', n) =>
          if satisfies args w (task_env r) then
            match assign args (task_env r) sets r with
            | Some r' => Some (r' :: rest', S n)
            | None => None
            end
          else Some (r :: rest', n)
      end
  end.

Definition exec (s : stmt) (args : list sqlval) (db : Database)
  : Database * result :=
  match s with
  | Select q => (db, Done (run_select q args db) 0%nat)
  | InsertTasks cols vals returning =>
      (* the sequence advances even when the insert is refused *)
      let db' := with_seq db (tasks_id_seq db + 1) in
      match assign args no_row (combine cols vals) (blank_row db) with
      | None => (db', Refused "datatype mismatch")
      | Some r =>
          if id_taken db (c_id r)
          then (db', Refused "duplicate key value violates unique constraint")
          else (with_tasks db' (tasks db ++ [r]),
                Done [[task_env r returning]] 1%nat)
      end
  | UpdateTasks sets w =>
      match update_rows args sets w (tasks db) with
      | None => (db, Refused "datatype mismatch")
      | Some (rows, n) => (with_tasks db rows, Done [] n)
      end
  | DeleteTasks w =>
      let keep := filter (fun r => negb (satisfies args w (task_env r)))
                    (tasks db) in
      (with_tasks db keep,
       Done [] (List.length (tasks db) - List.length keep)%nat)
  end.

End Pg.

(** ** The driver *)

(** The package talks to the store through [pgxpool]: [Query] with a loop
    over [Rows], [QueryRow] followed by [Scan], and [Exec].  These are
    modelled as the driver documents them. *)

Module pgx.
Import Sql Pg.

(** Go [error] values the package can receive.  [ErrNoRows] is the
    driver's sentinel [pgx.ErrNoRows]; [PgError] stands for whatever the
    pool or the server reports (no connection, a refused statement, a
    broken stream), [ScanError] for a value that does not fit its
    destination, [EncodeError] for an argument that does not fit the type
    of its placeholder. *)
Inductive error : Type :=
| ErrNoRows
| PgError (msg : string)
| ScanError (msg : string)
| EncodeError (msg : string).

(** [errors.Is(err, pgx.ErrNoRows)]: a test on the identity of the error
    value, which never looks at a message. *)
Definition IsErrNoRows (err : option error) : bool :=
  match err with
  | Some ErrNoRows => true
  | _ => false
  end.

(** What happens to one round trip.  [Reject]: the request never runs (no
    connection could be acquired, or the server turns it down).  [Broken n]:
    the statement runs, the answer stream delivers at most [n] rows and then
    fails. *)
Inductive fault : Type :=
| Healthy
| Reject (msg : string)
| Broken (n : nat) (msg : string).

(** The pool with the store behind it.  [faults] is the fate of the coming
    round trips, in order; past its end every round trip is healthy.
    [sent] records what the package has handed to the pool so far: each
    query text with its bound arguments. *)
Record Pool : Type := {
  data : Database;
  faults : list fault;
  sent : list (string * list sqlval)
}.

Definition next_fault (p : Pool) : fault :=
  match faults p with
  | [] => Healthy
  | f :: _ => f
  end.

(** Methods run against the pool: a state monad over [Pool]. *)
Definition M (A : Type) : Type := Pool -> A * Pool.

Definition ret {A : Type} (a : A) : M A := fun p => (a, p).

Definition bind {A B : Type} (m : M A) (k : A -> M B) : M B :=
  fun p => let (a, p') := m p in k a p'.

(** A statement as the package holds it: the text it sends, and what the
    store makes of that text. *)
Record statement : Type := {
  text : string;
  plan : stmt
}.

Inductive reply : Type :=
| Failed (e : error)
| Answer (rows : list (list sqlval)) (affected : nat)
         (late : option error).

(** Before a statement is executed the driver prepares it, learns the
    types of its placeholders and encodes the arguments for them.  A Go
    integer outside the range of its placeholder's type is refused there,
    and nothing is executed. *)
Definition encode_one (ty : int_type) (v : sqlval) : option error :=
  match v with
  | VInt z =>
      if fits ty z then None
      else if int_max ty <? z then
        Some (EncodeError
                (show_Z z ++ " is greater than maximum value for " ++
                 match ty with Int4 => "Int4" | Int8 => "Int8" end))
      else
        Some (EncodeError
                (show_Z z ++ " is less than minimum value for " ++
                 match ty with Int4 => "Int4" | Int8 => "Int8" end))
  | _ => None
  end.

Fixpoint encode (types : list (nat * int_type)) (args : list sqlval)
  : option error :=
  match types with
  | [] => None
  | (n, ty) :: rest =>
      match encode_one ty (param args n) with
      | Some e => Some e
      | None => encode rest args
      end
  end.

Definition roundtrip (q : statement) (args : list sqlval) : M reply :=
  fun p =>
    let rest := List.tl (faults p) in
    let log := (sent p ++ [(text q, args)])%list in
    match next_fault p with
    | Reject msg =>
        (Failed (PgError msg),
         {| data := data p; faults := rest; sent := log |})
    | f =>
      match encode (param_types (plan q)) args with
      | Some e =>
        (Failed e, {| data := data p; faults := rest; sent := log |})
      | None =>
        let (db', r) := exec (plan q) args (data p) in
        let p' := {| data := db'; faults := rest; sent := log |} in
        match r with
        | Refused msg => (Failed (PgError msg), p')
        | Done rows n =>
            match f with
            | Broken k msg =>
                (Answer (firstn k rows) n (Some (PgError msg)), p')
            | _ => (Answer rows n None, p')
            end
        end
      end
    end.

(** [pgx.Rows]: the rows still to be read, and the error that [Err]
    reports once [Next] has returned false. *)
Record Rows : Type := {
  pending : list (list sqlval);
  closing_err : option error
}.

Record CommandTag : Type := {
  RowsAffected : nat
}.

(** [pool.Query]. *)
Definition Query (q : statement) (args : list sqlval)
  : M (Rows * option error) :=
  bind (roundtrip q args) (fun r =>
    match r with
    | Failed e => ret ({| pending := []; closing_err := Some e |}, Some e)
    | Answer rows _ late =>
        ret ({| pending := rows; closing_err := late |}, None)
    end).

(** [pool.QueryRow]: never fails by itself, the error waits for [Scan]. *)
Definition QueryRow (q : statement) (args : list sqlval) : M Rows :=
  bind (roundtrip q args) (fun r =>
    match r with
    | Failed e => ret {| pending := []; closing_err := Some e |}
    | Answer rows _ late => ret {| pending := rows; closing_err := late |}
    end).

(** [pool.Exec]. *)
Definition Exec (q : statement) (args : list sqlval)
  : M (CommandTag * option error) :=
  bind (roundtrip q args) (fun r =>
    match r with
    | Failed e => ret ({| RowsAffected := 0 |}, Some e)
    | Answer _ n (Some e) => ret ({| RowsAffected := 0 |}, Some e)
    | Answer _ n None => ret ({| RowsAffected := n |}, None)
    end).

(** A destination of [Scan]: a pointer to an integer or to a string inside
    some Go variable of type [S], given by the store through that
    pointer. *)
Inductive dest (S : Type) : Type :=
| IntDest (set : Z -> S -> S)
| TextDest (set : string -> S -> S).

Arguments IntDest {S} set.
Arguments TextDest {S} set.

(** [Scan] decodes column by column and stops at the first value that does
    not fit: the destinations before it have been written by then. *)
Fixpoint scan_cols {S : Type} (vals : list sqlval) (ds : list (dest S))
    (s : S) : S * option error :=
  match vals, ds with
  | v :: vals', d :: ds' =>
      match d, v with
      | IntDest set, VInt z => scan_cols vals' ds' (set z s)
      | TextDest set, VText x => scan_cols vals' ds' (set x s)
      | _, VNull => (s, Some (ScanError "cannot assign NULL"))
      | _, _ => (s, Some (ScanError "cannot assign value"))
      end
  | _, _ => (s, None)
  end.

(** [rows.Scan]. *)
Definition Scan {S : Type} (vals : list sqlval) (ds : list (dest S))
    (s : S) : S * option error :=
  if Nat.eqb (List.length vals) (List.length ds) then scan_cols vals ds s
  else (s, Some (ScanError "wrong number of destinations")).

(** [row.Scan] on the result of [QueryRow]: the first row if there is one,
    [ErrNoRows] if the answer is empty, and any error of the stream. *)
Definition RowScan {S : Type} (r : Rows) (ds : list (dest S)) (s : S)
  : S * option error :=
  match pending r with
  | [] =>
      match closing_err r with
      | Some e => (s, Some e)
      | None => (s, Some ErrNoRows)
      end
  | vals :: _ =>
      let (s', err) := Scan vals ds s in
      match err with
      | Some e => (s', Some e)
      | None => (s', closing_err r)
      end
  end.

End pgx.

(** ** The package *)

Module storage.
Import Sql Pg pgx.

Notation "x <- m ;; k" := (bind m (fun x => k))
  (at level 61, m at next level, right associativity).
Notation "' pat <- m ;; k" := (bind m (fun x => match x with pat => k end))
  (at level 61, pat pattern, m at next level, right associativity).

(** [type Storage struct { db *pgxpool.Pool }] holds nothing but the pool,
    and [New] only opens it: a [Pool] stands for the receiver of every
    method. *)

(** [type Task struct]. *)
Record Task : Type := {
  ID : Z;
  Opened : Z;
  Closed : Z;
  AuthorID : Z;
  AssignedID : Z;
  Title : string;
  Content : string
}.

(** [Task{}], also the value of [var t Task]. *)
Definition zeroTask : Task :=
  {| ID := 0; Opened := 0; Closed := 0; AuthorID := 0; AssignedID := 0;
     Title := ""; Content := "" |}.

(** The seven pointers [&t.ID, ..., &t.Content] every read passes to
    [Scan], in this order. *)
Definition taskDests : list (dest Task) :=
  [ IntDest (fun z t =>
      {| ID := z; Opened := Opened t; Closed := Closed t;
         AuthorID := AuthorID t; AssignedID := AssignedID t;
         Title := Title t; Content := Content t |});
    IntDest (fun z t =>
      {| ID := ID t; Opened := z; Closed := Closed t;
         AuthorID := AuthorID t; AssignedID := AssignedID t;
         Title := Title t; Content := Content t |});
    IntDest (fun z t =>
      {| ID := ID t; Opened := Opened t; Closed := z;
         AuthorID := AuthorID t; AssignedID := AssignedID t;
         Title := Title t; Content := Content t |});
    IntDest (fun z t =>
      {| ID := ID t; Opened := Opened t; Closed := Closed t;
         AuthorID := z; AssignedID := AssignedID t;
         Title := Title t; Content := Content t |});
    IntDest (fun z t =>
      {| ID := ID t; Opened := Opened t; Closed := Closed t;
         AuthorID := AuthorID t; AssignedID := z;
         Title := Title t; Content := Content t |});
    TextDest (fun s t =>
      {| ID := ID t; Opened := Opened t; Closed := Closed t;
         AuthorID := AuthorID t; AssignedID := AssignedID t;
         Title := s; Content := Content t |});
    TextDest (fun s t =>
      {| ID := ID t; Opened := Opened t; Closed := Closed t;
         AuthorID := AuthorID t; AssignedID := AssignedID t;
         Title := Title t; Content := s |}) ].

(** The loop the three list methods share word for word:
    [for rows.Next() { var t Task; err = rows.Scan(...);
    if err != nil { return nil, err }; tasks = append(tasks, t) }
    return tasks, rows.Err()]. *)
Fixpoint scanTasks (pending : list (list sqlval))
    (closing : option error) (tasks : list Task)
  : list Task * option error :=
  match pending with
  | [] => (tasks, closing)
  | vals :: rest =>
      let (t, err) := Scan vals taskDests zeroTask in
      match err with
      | Some e => ([], Some e)
      | None => scanTasks rest closing (tasks ++ [t])
      end
  end.

(** The raw string literal passed to the pool by [Tasks]. *)
Definition sqlTasks : string :=
"
		SELECT 
			id,
			opened,
			closed,
			author_id,
			assigned_id,
			title,
			content
		FROM tasks
		WHERE
			($1 = 0 OR id = $1) AND
			($2 = 0 OR author_id = $2)
		ORDER BY id;
	".

(** The raw string literal passed to the pool by [NewTask]. *)
Definition sqlNewTask : string :=
"
		INSERT INTO tasks (title, content)
		VALUES ($1, $2) RETURNING id;
		".

(** The raw string literal passed to the pool by [TasksByAuthor]. *)
Definition sqlTasksByAuthor : string :=
"
		SELECT
			id,
			opened,
			closed,
			author_id,
			assigned_id,
			title,
			content
		FROM tasks
		WHERE author_id = $1
		ORDER BY id;
".

(** The raw string literal passed to the pool by [TasksByLabel]. *)
Definition sqlTasksByLabel : string :=
"
		SELECT
			t.id,
			t.opened,
			t.closed,
			t.author_id,
			t.assigned_id,
			t.title,
			t.content
		FROM tasks t
		INNER JOIN task_labels tl ON t.id = tl.task_id
		INNER JOIN labels l ON tl.label_id = l.id
		WHERE l.label = $1
		ORDER BY t.id;
".

(** The raw string literal passed to the pool by [GetTaskByID]. *)
Definition sqlGetTaskByID : string :=
"
		SELECT
			id,
			opened,
			closed,
			author_id,
			assigned_id,
			title,
			content
		FROM tasks
		WHERE id = $1;
".

(** The raw string literal passed to the pool by [UpdateTask]. *)
Definition sqlUpdateTask : string :=
"
		UPDATE tasks
		SET
			opened = $1,
			closed = $2,
			author_id = $3,
			assigned_id = $4,
			title = $5,
			content = $6
		WHERE id = $7;
".

(** The raw string literal passed to the pool by [DeleteTaskByID]. *)
Definition sqlDeleteTaskByID : string :=
"
		DELETE FROM tasks WHERE id = $1;
".

Definition task_columns : list string :=
  ["id"; "opened"; "closed"; "author_id"; "assigned_id"; "title";
   "content"].

(** The filter of [Tasks] on one column: [($n = 0 OR column = $n)]. *)
Definition wildcard (n : nat) (column : string) : expr :=
  Or (Eq (Param n) (IntLit 0)) (Eq (Col column) (Param n)).

Definition stTasks : statement :=
  {| text := sqlTasks;
     plan := Select
       {| columns := task_columns; from := FromTasks;
          where_ := And (wildcard 1 "id") (wildcard 2 "author_id");
          order_by := Some "id" |} |}.

Definition stNewTask : statement :=
  {| text := sqlNewTask;
     plan := InsertTasks ["title"; "content"] [Param 1; Param 2] "id" |}.

Definition stTasksByAuthor : statement :=
  {| text := sqlTasksByAuthor;
     plan := Select
       {| columns := task_columns; from := FromTasks;
          where_ := Eq (Col "author_id") (Param 1);
          order_by := Some "id" |} |}.

Definition stTasksByLabel : statement :=
  {| text := sqlTasksByLabel;
     plan := Select
       {| columns := map (fun c => "t." ++ c) task_columns;
          from := FromTasksJoinLabels
                    (Eq (Col "t.id") (Col "tl.task_id"))
                    (Eq (Col "tl.label_id") (Col "l.id"));
          where_ := Eq (Col "l.label") (Param 1);
          order_by := Some "t.id" |} |}.

Definition stGetTaskByID : statement :=
  {| text := sqlGetTaskByID;
     plan := Select
       {| columns := task_columns; from := FromTasks;
          where_ := Eq (Col "id") (Param 1);
          order_by := None |} |}.

Definition stUpdateTask : statement :=
  {| text := sqlUpdateTask;
     plan := UpdateTasks
       [("opened", Param 1); ("closed", Param 2); ("author_id", Param 3);
        ("assigned_id", Param 4); ("title", Param 5); ("content", Param 6)]
       (Eq (Col "id") (Param 7)) |}.

Definition stDeleteTaskByID : statement :=
  {| text := sqlDeleteTaskByID;
     plan := DeleteTasks (Eq (Col "id") (Param 1)) |}.

(** [func (s *Storage) Tasks(taskID, authorID int) ([]Task, error)].
    Both arguments are compared with the literal [0] in the statement, so
    the driver encodes them as four-byte integers and [Query] fails for a
    value outside that range. *)
Definition Tasks (taskID authorID : Z) : M (list Task * option error) :=
  '(rows, err) <- Query stTasks [VInt taskID; VInt authorID] ;;
  match err with
  | Some e => ret ([], Some e)
  | None => ret (scanTasks (pending rows) (closing_err rows) [])
  end.

(** [func (s *Storage) NewTask(t Task) (int, error)]. *)
Definition NewTask (t : Task) : M (Z * option error) :=
  row <- QueryRow stNewTask [VText (Title t); VText (Content t)] ;;
  ret (RowScan row [IntDest (fun z (_ : Z) => z)] 0).

(** [func (s *Storage) TasksByAuthor(authorID int) ([]Task, error)]. *)
Definition TasksByAuthor (authorID : Z) : M (list Task * option error) :=
  '(rows, err) <- Query stTasksByAuthor [VInt authorID] ;;
  match err with
  | Some e => ret ([], Some e)
  | None => ret (scanTasks (pending rows) (closing_err rows) [])
  end.

(** [func (s *Storage) TasksByLabel(label string) ([]Task, error)]. *)
Definition TasksByLabel (label : string) : M (list Task * option error) :=
  '(rows, err) <- Query stTasksByLabel [VText label] ;;
  match err with
  | Some e => ret ([], Some e)
  | None => ret (scanTasks (pending rows) (closing_err rows) [])
  end.

(** [func (s *Storage) GetTaskByID(id int) (Task, error)]. *)
Definition GetTaskByID (id : Z) : M (Task * option error) :=
  row <- QueryRow stGetTaskByID [VInt id] ;;
  let (t, err) := RowScan row taskDests zeroTask in
  match err with
  | Some e => ret (zeroTask, Some e)
  | None => ret (t, None)
  end.

(** [func (s *Storage) UpdateTask(id int, updatedTask Task) error]. *)
Definition UpdateTask (id : Z) (updatedTask : Task) : M (option error) :=
  '(_, err) <- Exec stUpdateTask
      [VInt (Opened updatedTask); VInt (Closed updatedTask);
       VInt (AuthorID updatedTask); VInt (AssignedID updatedTask);
       VText (Title updatedTask); VText (Content updatedTask);
       VInt id] ;;
  match err with
  | Some e => ret (Some e)
  | None => ret None
  end.

(** [func (s *Storage) DeleteTaskByID(id int) error]. *)
Definition DeleteTaskByID (id : Z) : M (option error) :=
  '(_, err) <- Exec stDeleteTaskByID [VInt id] ;;
  match err with
  | Some e => ret (Some e)
  | None => ret None
  end.

End storage.

(** ** The vocabulary of the properties *)

Import Sql Pg pgx storage.

Definition or_zero (o : option Z) : Z :=
  match o with
  | Some z => z
  | None => 0
  end.

Definition or_empty (o : option string) : string :=
  match o with
  | Some s => s
  | None => ""
  end.

Definition is_some {A : Type} (o : option A) : bool :=
  match o with
  | Some _ => true
  | None => false
  end.

(** A row is complete when none of its columns is NULL; only then is it a
    task in the sense of the Go type. *)
Definition complete (r : TaskRow) : bool :=
  is_some (c_opened r) && is_some (c_closed r) &&
  is_some (c_author_id r) && is_some (c_assigned_id r) &&
  is_some (c_title r) && is_some (c_content r).

Definition task_of (r : TaskRow) : Task :=
  {| ID := c_id r;
     Opened := or_zero (c_opened r);
     Closed := or_zero (c_closed r);
     AuthorID := or_zero (c_author_id r);
     AssignedID := or_zero (c_assigned_id r);
     Title := or_empty (c_title r);
     Content := or_empty (c_content r) |}.

(** The row that holds a given task under a given id. *)
Definition row_of (id : Z) (t : Task) : TaskRow :=
  {| c_id := id;
     c_opened := Some (Opened t);
     c_closed := Some (Closed t);
     c_author_id := Some (AuthorID t);
     c_assigned_id := Some (AssignedID t);
     c_title := Some (Title t);
     c_content := Some (Content t) |}.

(** What UPDATE makes of a row: the six other columns are replaced in the
    rows that carry the id, [id] itself is kept. *)
Definition overwrite (id : Z) (t : Task) (r : TaskRow) : TaskRow :=
  if c_id r =? id then row_of (c_id r) t else r.

(** The row INSERT adds for a task: the next id of the sequence, the
    defaults, the given title and content. *)
Definition inserted (db : Database) (t : Task) : TaskRow :=
  {| c_id := tasks_id_seq db;
     c_opened := d_opened (defaults db);
     c_closed := d_closed (defaults db);
     c_author_id := d_author_id (defaults db);
     c_assigned_id := d_assigned_id (defaults db);
     c_title := Some (Title t);
     c_content := Some (Content t) |}.

(** The stored tasks, in storage order. *)
Definition stored (db : Database) : list Task :=
  map task_of (filter complete (tasks db)).

(** Schema conditions: no NULL in [tasks]; [id] is a key of [tasks]; the
    sequence is ahead of every id in use; [labels.id] and [labels.label]
    are keys of [labels]; the defaults are not NULL. *)
Definition populated (db : Database) : Prop :=
  forallb complete (tasks db) = true.

Definition pk_unique (db : Database) : Prop :=
  NoDup (map c_id (tasks db)).

Definition seq_ahead (db : Database) : Prop :=
  forall r, In r (tasks db) -> c_id r < tasks_id_seq db.

Definition labels_keyed (db : Database) : Prop :=
  NoDup (map l_id (labels db)) /\ NoDup (map l_label (labels db)).

Definition defaults_set (db : Database) : Prop :=
  is_some (d_opened (defaults db)) && is_some (d_closed (defaults db)) &&
  is_some (d_author_id (defaults db)) &&
  is_some (d_assigned_id (defaults db)) = true.

(** The schema conditions together. *)
Definition schema_ok (db : Database) : Prop :=
  populated db /\ pk_unique db /\ seq_ahead db /\ defaults_set db.

(** No row of [tasks] carries this id. *)
Definition absent (id : Z) (db : Database) : Prop :=
  forall r, In r (tasks db) -> c_id r <> id.

(** The rows of [tasks] that carry this id, in storage order. *)
Definition with_id (id : Z) (db : Database) : list TaskRow :=
  filter (fun r => c_id r =? id) (tasks db).

(** The next [n] round trips meet no fault. *)
Definition calm (n : nat) (p : Pool) : Prop :=
  forall k, (k < n)%nat -> nth k (faults p) Healthy = Healthy.

(** The pool after a round trip that left the store as it was. *)
Definition served (st : statement) (args : list sqlval) (p : Pool) : Pool :=
  {| data := data p; faults := List.tl (faults p);
     sent := (sent p ++ [(text st, args)])%list |}.

(** Strictly ascending by [ID]. *)
Definition ascending (ts : list Task) : Prop :=
  StronglySorted (fun a b => ID a < ID b) ts.

(** The filter of [Tasks], on Go values. *)
Definition wanted (taskID authorID : Z) (t : Task) : bool :=
  ((taskID =? 0) || (ID t =? taskID)) &&
  ((authorID =? 0) || (AuthorID t =? authorID)).

(** The filter of [TasksByAuthor], on Go values. *)
Definition written_by (authorID : Z) (t : Task) : bool :=
  AuthorID t =? authorID.

(** A row of [tasks] is associated with a label of the given name when
    some row of [task_labels] links it to a row of [labels] with that
    name. *)
Definition labelled (db : Database) (name : string) (r : TaskRow) : Prop :=
  exists tl l,
    In tl (task_labels db) /\ In l (labels db) /\
    tl_task_id tl = c_id r /\ tl_label_id tl = l_id l /\ l_label l = name.

(** The conditions of [TasksByLabel] on a row of the join: the two ON
    clauses and the WHERE clause. *)
Definition linked (label : string) (j : joined) : bool :=
  let '(t, tl, l) := j in
  (c_id t =? tl_task_id tl) && (tl_label_id tl =? l_id l) &&
  String.eqb (l_label l) label.

(** C2 as it is worded: the result of [TasksByLabel] is made of the tasks
    associated with a label of that name, ascends by [ID], and repeats
    no task. *)
Definition TasksByLabel_as_claimed (label : string) (p : Pool) : Prop :=
  exists ts,
    fst (TasksByLabel label p) = (ts, None) /\
    (forall t, In t ts <->
               exists r, In r (tasks (data p)) /\
                         labelled (data p) label r /\ t = task_of r) /\
    StronglySorted (fun a b => ID a <= ID b) ts /\
    NoDup ts.

(** The wire form of a row of [tasks]: its seven columns in select-list
    order. *)
Definition wire (r : TaskRow) : list sqlval :=
  project task_columns (task_env r).

(** The operations of the package and the calls a client can make. *)
Inductive op : Type :=
| OpTasks
| OpNewTask
| OpTasksByAuthor
| OpTasksByLabel
| OpGetTaskByID
| OpUpdateTask
| OpDeleteTaskByID.

Inductive call : Type :=
| CallTasks (taskID authorID : Z)
| CallNewTask (t : Task)
| CallTasksByAuthor (authorID : Z)
| CallTasksByLabel (label : string)
| CallGetTaskByID (id : Z)
| CallUpdateTask (id : Z) (updatedTask : Task)
| CallDeleteTaskByID (id : Z).

Definition op_of (c : call) : op :=
  match c with
  | CallTasks _ _ => OpTasks
  | CallNewTask _ => OpNewTask
  | CallTasksByAuthor _ => OpTasksByAuthor
  | CallTasksByLabel _ => OpTasksByLabel
  | CallGetTaskByID _ => OpGetTaskByID
  | CallUpdateTask _ _ => OpUpdateTask
  | CallDeleteTaskByID _ => OpDeleteTaskByID
  end.

(** The pool after a call, whatever the call returned. *)
Definition after (c : call) (p : Pool) : Pool :=
  match c with
  | CallTasks taskID authorID => snd (Tasks taskID authorID p)
  | CallNewTask t => snd (NewTask t p)
  | CallTasksByAuthor authorID => snd (TasksByAuthor authorID p)
  | CallTasksByLabel label => snd (TasksByLabel label p)
  | CallGetTaskByID id => snd (GetTaskByID id p)
  | CallUpdateTask id updatedTask => snd (UpdateTask id updatedTask p)
  | CallDeleteTaskByID id => snd (DeleteTaskByID id p)
  end.

(** The statement of each operation. *)
Definition statement_of (o : op) : statement :=
  match o with
  | OpTasks => stTasks
  | OpNewTask => stNewTask
  | OpTasksByAuthor => stTasksByAuthor
  | OpTasksByLabel => stTasksByLabel
  | OpGetTaskByID => stGetTaskByID
  | OpUpdateTask => stUpdateTask
  | OpDeleteTaskByID => stDeleteTaskByID
  end.

(** The values a call carries, in the order of its statement's
    placeholders. *)
Definition inputs (c : call) : list sqlval :=
  match c with
  | CallTasks taskID authorID => [VInt taskID; VInt authorID]
  | CallNewTask t => [VText (Title t); VText (Content t)]
  | CallTasksByAuthor authorID => [VInt authorID]
  | CallTasksByLabel label => [VText label]
  | CallGetTaskByID id => [VInt id]
  | CallUpdateTask id t =>
      [VInt (Opened t); VInt (Closed t); VInt (AuthorID t);
       VInt (AssignedID t); VText (Title t); VText (Content t); VInt id]
  | CallDeleteTaskByID id => [VInt id]
  end.

(** ** Sample stores *)

Definition sample_defaults : Defaults :=
  {| d_opened := Some 1700000000; d_closed := Some 0;
     d_author_id := Some 0; d_assigned_id := Some 0 |}.

Definition sample_rows : list TaskRow :=
  [ {| c_id := 3; c_opened := Some 30; c_closed := Some 35;
       c_author_id := Some 7; c_assigned_id := Some 8;
       c_title := Some "third"; c_content := Some "c" |};
    {| c_id := 1; c_opened := Some 10; c_closed := Some 0;
       c_author_id := Some 7; c_assigned_id := Some 0;
       c_title := Some "first"; c_content := Some "a" |};
    {| c_id := 2; c_opened := Some 20; c_closed := Some 0;
       c_author_id := Some 0; c_assigned_id := Some 7;
       c_title := Some "second"; c_content := Some "b" |} ].

Definition sample_labels : list LabelRow :=
  [ {| l_id := 1; l_label := "bug" |}; {| l_id := 2; l_label := "ui" |} ].

(** Three tasks stored out of id order; tasks 1 and 3 carry the label
    "bug", task 3 also "ui". *)
Definition sample_db : Database :=
  {| tasks := sample_rows;
     labels := sample_labels;
     task_labels :=
       [ {| tl_task_id := 3; tl_label_id := 1 |};
         {| tl_task_id := 1; tl_label_id := 1 |};
         {| tl_task_id := 3; tl_label_id := 2 |} ];
     tasks_id_seq := 4;
     defaults := sample_defaults |}.

Definition sample_pool : Pool :=
  {| data := sample_db; faults := []; sent := [] |}.

(** The same store with the association of task 1 and "bug" entered
    twice. *)
Definition twice_db : Database :=
  {| tasks := sample_rows;
     labels := sample_labels;
     task_labels :=
       [ {| tl_task_id := 3; tl_label_id := 1 |};
         {| tl_task_id := 1; tl_label_id := 1 |};
         {| tl_task_id := 1; tl_label_id := 1 |} ];
     tasks_id_seq := 4;
     defaults := sample_defaults |}.

Definition twice_pool : Pool :=
  {| data := twice_db; faults := []; sent := [] |}.

(** A store whose only task has NULL in [closed]: [Scan] fails at the
    third column, after [ID] and [Opened] were written. *)
Definition null_pool : Pool :=
  {| data :=
       {| tasks :=
            [ {| c_id := 2; c_opened := Some 20; c_closed := None;
                 c_author_id := Some 0; c_assigned_id := Some 7;
                 c_title := Some "second"; c_content := Some "b" |} ];
          labels := []; task_labels := [];
          tasks_id_seq := 3; defaults := sample_defaults |};
     faults := []; sent := [] |}.

(** A task value with every field set, as a caller may pass it. *)
Definition sample_task : Task :=
  {| ID := 42; Opened := 5; Closed := 6; AuthorID := 11; AssignedID := 12;
     Title := "T"; Content := "C" |}.

(** ** Arguments the driver can encode *)

(** The integers that fit the four-byte [integer] of the store. *)
Definition in_int4 (z : Z) : Prop := fits Int4 z = true.

(** C1 as it is worded: [Tasks] returns, without error, exactly the
    stored tasks that pass its two filters, in strictly ascending order
    of [ID]. *)
Definition Tasks_as_claimed (taskID authorID : Z) (p : Pool) : Prop :=
  exists ts,
    fst (Tasks taskID authorID p) = (ts, None) /\
    Permutation ts (filter (wanted taskID authorID) (stored (data p))) /\
    ascending ts.

(** ** Calls as a client sees them *)

(** What a method hands back beside its error. *)
Inductive returned : Type :=
| Listed (ts : list Task)
| Created (id : Z)
| Fetched (t : Task)
| Finished.

Definition answer (c : call) (p : Pool) : returned * option error :=
  match c with
  | CallTasks taskID authorID =>
      let (ts, err) := fst (Tasks taskID authorID p) in (Listed ts, err)
  | CallNewTask t =>
      let (id, err) := fst (NewTask t p) in (Created id, err)
  | CallTasksByAuthor authorID =>
      let (ts, err) := fst (TasksByAuthor authorID p) in (Listed ts, err)
  | CallTasksByLabel label =>
      let (ts, err) := fst (TasksByLabel label p) in (Listed ts, err)
  | CallGetTaskByID id =>
      let (t, err) := fst (GetTaskByID id p) in (Fetched t, err)
  | CallUpdateTask id updatedTask =>
      (Finished, fst (UpdateTask id updatedTask p))
  | CallDeleteTaskByID id => (Finished, fst (DeleteTaskByID id p))
  end.

(** The zero value of each method's result: a nil slice, the id 0, the
    zero task. *)
Definition blank (c : call) : returned :=
  match c with
  | CallTasks _ _ => Listed []
  | CallNewTask _ => Created 0
  | CallTasksByAuthor _ => Listed []
  | CallTasksByLabel _ => Listed []
  | CallGetTaskByID _ => Fetched zeroTask
  | CallUpdateTask _ _ => Finished
  | CallDeleteTaskByID _ => Finished
  end.

(** The calls that only read. *)
Definition reads (c : call) : bool :=
  match c with
  | CallNewTask _ => false
  | CallUpdateTask _ _ => false
  | CallDeleteTaskByID _ => false
  | _ => true
  end.

(** A client making calls one after the other. *)
Fixpoint run (cs : list call) (p : Pool) : Pool :=
  match cs with
  | [] => p
  | c :: cs' => run cs' (after c p)
  end.

(** The WHERE clauses of [Tasks] and [TasksByAuthor] on a row that may
    hold NULLs: a NULL [author_id] equals nothing. *)
Definition authored (authorID : Z) (r : TaskRow) : bool :=
  match c_author_id r with
  | Some a => a =? authorID
  | None => false
  end.

Definition selected (taskID authorID : Z) (r : TaskRow) : bool :=
  ((taskID =? 0) || (c_id r =? taskID)) &&
  ((authorID =? 0) || authored authorID r).

(** The rows [Tasks] and [TasksByAuthor] receive, in the order they
    receive them. *)
Definition by_id (rows : list TaskRow) : list TaskRow :=
  sort_by (fun r => task_env r "id") rows.

(** The rows of [tasks] a reading call is answered with, in the order of
    the answer, when the round trip meets no fault. *)
Definition answer_rows (c : call) (db : Database) : list TaskRow :=
  match c with
  | CallTasks taskID authorID =>
      by_id (filter (selected taskID authorID) (tasks db))
  | CallTasksByAuthor authorID =>
      by_id (filter (authored authorID) (tasks db))
  | CallTasksByLabel label =>
      map join_task
        (sort_by (fun j => join_env j "t.id")
           (filter (linked label) (cross db)))
  | CallGetTaskByID id => with_id id db
  | _ => []
  end.

(** What the statement of a call makes of the store when it is executed:
    nothing for a read, one more row and a step of the sequence for
    [NewTask] (the step alone if the id is taken), overwritten rows for
    [UpdateTask], fewer rows for [DeleteTaskByID]. *)
Definition effect (c : call) (db : Database) : Database :=
  match c with
  | CallNewTask t =>
      if id_taken db (tasks_id_seq db)
      then with_seq db (tasks_id_seq db + 1)
      else with_tasks (with_seq db (tasks_id_seq db + 1))
             (tasks db ++ [inserted db t])
  | CallUpdateTask id t =>
      with_tasks db (map (overwrite id t) (tasks db))
  | CallDeleteTaskByID id =>
      with_tasks db (filter (fun r => negb (c_id r =? id)) (tasks db))
  | _ => db
  end.

(** What [Tasks id 0] returns when [GetTaskByID id] returns this. *)
Definition as_list (got : Task * option error)
  : list Task * option error :=
  match got with
  | (t, None) => ([t], None)
  | (_, Some ErrNoRows) => ([], None)
  | (_, Some e) => ([], Some e)
  end.

(** The encoding error a call meets before its statement runs, if any. *)
Definition refusal (c : call) : option error :=
  encode (param_types (plan (statement_of (op_of c)))) (inputs c).

(** The list methods among the calls. *)
Definition lists (c : call) : bool :=
  match c with
  | CallTasks _ _ => true
  | CallTasksByAuthor _ => true
  | CallTasksByLabel _ => true
  | _ => false
  end.

(** The same pool with its next round trip made healthy. *)
Definition mended (p : Pool) : Pool :=
  {| data := data p; faults := Healthy :: List.tl (faults p);
     sent := sent p |}.

(** [func New(constr string)], which returns a [*Storage] and an error.
    [pgxpool.Connect] is the driver's; it is a parameter here.  A nil
    [*Storage] is [None]. *)
Module connect.

Section Construction.

Variable Connect : string -> Pool + error.

Record Storage : Type := {
  db : Pool
}.

Definition New (constr : string) : option Storage * option error :=
  match Connect constr with
  | inr err => (None, Some err)
  | inl pool => (Some {| db := pool |}, None)
  end.

End Construction.

End connect.

(** ** More sample stores *)

(** The sample store behind a pool that turns the next request down, and
    behind one whose next answer breaks after one row. *)
Definition refusing_pool : Pool :=
  {| data := sample_db; faults := [Reject "no connection"]; sent := [] |}.

Definition breaking_pool : Pool :=
  {| data := sample_db; faults := [Broken 1 "connection reset"];
     sent := [] |}.

(** The sample tasks with two damaged rows added: task 4 has no author,
    task 5 has author 9 and no title. *)
Definition ragged_db : Database :=
  {| tasks :=
       (sample_rows ++
        [ {| c_id := 4; c_opened := Some 40; c_closed := Some 0;
             c_author_id := None; c_assigned_id := Some 0;
             c_title := Some "fourth"; c_content := Some "d" |};
          {| c_id := 5; c_opened := Some 50; c_closed := Some 0;
             c_author_id := Some 9; c_assigned_id := Some 0;
             c_title := None; c_content := Some "e" |} ])%list;
     labels := sample_labels;
     task_labels := [];
     tasks_id_seq := 6;
     defaults := sample_defaults |}.

Definition ragged_pool : Pool :=
  {| data := ragged_db; faults := []; sent := [] |}.

(** A store whose sequence was set back onto an id in use. *)
Definition stale_seq_pool : Pool :=
  {| data :=
       {| tasks := sample_rows; labels := sample_labels;
          task_labels := []; tasks_id_seq := 3;
          defaults := sample_defaults |};
     faults := []; sent := [] |}.

(** * Properties *)

(** Lists of distinct constants; fault-free stretches of a pool without
    pending faults. *)
Ltac distinct :=
  repeat (constructor; [cbn; intuition congruence|]); constructor.

Ltac all_calm :=
  let k := fresh "k" in
  intros k _; cbn; destruct k as [|[|[|k]]]; reflexivity.

(** A statement none of whose placeholders meets a literal puts no bound
    on its arguments. *)
Ltac unbounded :=
  match goal with
  | |- context [encode ?ts ?args] =>
      let H := fresh "Henc" in
      assert (H : encode ts args = None) by reflexivity;
      rewrite H; clear H; cbv beta iota
  end.

(** ** Statements and their texts *)

(** Each plan is what its text says: printed back, it is the text up to
    layout. *)
Lemma texts_are_plans (o : op) :
  layout_free (text (statement_of o)) = render (plan (statement_of o)).
Proof. destruct o; vm_compute; reflexivity. Qed.

(** ** Scanning rows *)

Lemma Scan_complete (r : TaskRow) :
  complete r = true -> Scan (wire r) taskDests zeroTask = (task_of r, None).
Proof.
  destruct r as [i [o|] [c|] [a|] [g|] [t|] [b|]];
    cbn; intros H; try discriminate H; reflexivity.
Qed.

Lemma scanTasks_complete (rows : list TaskRow) (closing : option error) :
  forall acc,
    forallb complete rows = true ->
    scanTasks (map wire rows) closing acc
    = ((acc ++ map task_of rows)%list, closing).
Proof.
  induction rows as [|r rows IH]; intros acc H.
  - cbn. now rewrite app_nil_r.
  - cbn [forallb] in H. apply andb_true_iff in H as [Hr Hrows].
    cbn [map scanTasks]. rewrite (Scan_complete r Hr).
    rewrite IH by assumption. now rewrite <- app_assoc.
Qed.

(** ** ORDER BY *)

Section OrderBy.
Context {A : Type} (key : A -> sqlval) (k : A -> Z).

Lemma insert_by_perm (x : A) (l : list A) :
  Permutation (insert_by key x l) (x :: l).
Proof.
  induction l as [|y l IH]; cbn.
  - apply Permutation_refl.
  - destruct (sql_le (key x) (key y)).
    + apply Permutation_refl.
    + eapply perm_trans; [apply perm_skip, IH | apply perm_swap].
Qed.

Lemma sort_by_perm (l : list A) : Permutation (sort_by key l) l.
Proof.
  induction l as [|x l IH]; cbn.
  - apply perm_nil.
  - eapply perm_trans; [apply insert_by_perm | apply perm_skip, IH].
Qed.

Hypothesis key_int : forall x, key x = VInt (k x).

Lemma insert_by_sorted (x : A) (l : list A) :
  StronglySorted (fun a b => k a <= k b) l ->
  StronglySorted (fun a b => k a <= k b) (insert_by key x l).
Proof.
  induction 1 as [|y l Hl IH Hy]; cbn.
  - repeat constructor.
  - rewrite !key_int. cbn. destruct (Z.leb_spec (k x) (k y)) as [Hxy|Hxy].
    + constructor; [now constructor|].
      constructor; [exact Hxy|].
      eapply Forall_impl; [|exact Hy]. cbn. intros; lia.
    + constructor; [exact IH|].
      eapply Permutation_Forall;
        [apply Permutation_sym, insert_by_perm|].
      constructor; [lia | exact Hy].
Qed.

Lemma sort_by_sorted (l : list A) :
  StronglySorted (fun a b => k a <= k b) (sort_by key l).
Proof.
  induction l as [|x l IH]; cbn.
  - constructor.
  - now apply insert_by_sorted.
Qed.

Lemma sorted_strict (l : list A) :
  NoDup (map k l) ->
  StronglySorted (fun a b => k a <= k b) l ->
  StronglySorted (fun a b => k a < k b) l.
Proof.
  intros Hnd Hs. induction Hs as [|x l Hl IH Hx]; [constructor|].
  cbn in Hnd. apply NoDup_cons_iff in Hnd as [Hx' Hnd].
  constructor; [now apply IH|].
  rewrite Forall_forall in *. intros y Hy.
  assert (k x <> k y).
  { intros E. apply Hx'. rewrite E. now apply in_map. }
  specialize (Hx y Hy). lia.
Qed.

End OrderBy.

Lemma NoDup_map_filter {A B : Type} (f : A -> B) (keep : A -> bool)
    (l : list A) :
  NoDup (map f l) -> NoDup (map f (filter keep l)).
Proof.
  induction l as [|x l IH]; cbn; intros H; [exact H|].
  apply NoDup_cons_iff in H as [Hx Hl].
  destruct (keep x); cbn; [|now apply IH].
  constructor; [|now apply IH].
  intros Hin. apply Hx. apply in_map_iff in Hin as (y & E & Hy).
  apply filter_In in Hy as [Hy _]. rewrite <- E. now apply in_map.
Qed.

Lemma StronglySorted_map {A B : Type} (f : A -> B) (R : B -> B -> Prop)
    (l : list A) :
  StronglySorted (fun a b => R (f a) (f b)) l ->
  StronglySorted R (map f l).
Proof.
  induction 1 as [|x l Hl IH Hx]; cbn; constructor; [exact IH|].
  rewrite Forall_forall in *. intros y Hy.
  apply in_map_iff in Hy as (z & <- & Hz). now apply Hx.
Qed.

(** Rows of [tasks] sorted on [id], read as tasks, are in strictly
    ascending order of [ID] when [id] is a key. *)
Lemma ascending_sorted_rows (rows : list TaskRow) :
  NoDup (map c_id rows) ->
  ascending (map task_of (sort_by (fun r => task_env r "id") rows)).
Proof.
  intros Hnd. apply StronglySorted_map. cbn [task_of ID].
  apply sorted_strict.
  - eapply Permutation_NoDup; [|exact Hnd].
    apply Permutation_map, Permutation_sym, sort_by_perm.
  - apply sort_by_sorted. reflexivity.
Qed.

(** ** Round trips *)

Lemma roundtrip_select (st : statement) (q : select) (args : list sqlval)
    (p : Pool) :
  plan st = Select q ->
  encode (param_types (plan st)) args = None ->
  next_fault p = Healthy ->
  roundtrip st args p
  = (Answer (run_select q args (data p)) 0 None, served st args p).
Proof.
  intros Hplan Henc Hf. unfold roundtrip. rewrite Hf, Henc, Hplan.
  reflexivity.
Qed.

Lemma roundtrip_sent (st : statement) (args : list sqlval) (p : Pool) :
  sent (snd (roundtrip st args p)) = (sent p ++ [(text st, args)])%list.
Proof.
  unfold roundtrip.
  destruct (next_fault p); [| reflexivity |];
    (destruct (encode (param_types (plan st)) args); [reflexivity|]);
    destruct (exec (plan st) args (data p)) as [db' [rows k|why]];
    reflexivity.
Qed.

(** The body the list methods over [tasks] alone have in common. *)
Lemma list_method_healthy (st : statement) (w : expr) (args : list sqlval)
    (keep : Task -> bool) (p : Pool) :
  plan st = Select {| columns := task_columns; from := FromTasks;
                      where_ := w; order_by := Some "id" |} ->
  encode (param_types (plan st)) args = None ->
  (forall r, complete r = true ->
             satisfies args w (task_env r) = keep (task_of r)) ->
  next_fault p = Healthy ->
  populated (data p) ->
  bind (Query st args) (fun x =>
    match x with
    | (rows, err) =>
        match err with
        | Some e => ret ([], Some e)
        | None => ret (scanTasks (pending rows) (closing_err rows) [])
        end
    end) p
  = ((map task_of
        (sort_by (fun r => task_env r "id")
           (filter (fun r => keep (task_of r)) (tasks (data p)))),
      None),
     served st args p).
Proof.
  intros Hplan Henc Hw Hf Hpop. unfold bind, Query, bind.
  rewrite (roundtrip_select st _ args p Hplan Henc Hf).
  cbn [ret pending closing_err run_select from columns where_ order_by
       ordered].
  assert (Hfilter :
    filter (fun r => satisfies args w (task_env r)) (tasks (data p))
    = filter (fun r => keep (task_of r)) (tasks (data p))).
  { apply filter_ext_in. intros r Hr. apply Hw.
    unfold populated in Hpop. rewrite forallb_forall in Hpop. auto. }
  rewrite Hfilter.
  change (fun r : TaskRow => project task_columns (task_env r)) with wire.
  rewrite scanTasks_complete; [reflexivity|].
  apply forallb_forall. intros r Hr.
  unfold populated in Hpop. rewrite forallb_forall in Hpop. apply Hpop.
  eapply (proj1 (filter_In _ _ _)).
  eapply Permutation_in; [apply sort_by_perm | exact Hr].
Qed.

Lemma stored_populated (db : Database) :
  populated db -> stored db = map task_of (tasks db).
Proof.
  unfold populated, stored. intros H. f_equal.
  induction (tasks db) as [|r l IH]; [reflexivity|].
  cbn in *. apply andb_true_iff in H as [Hr Hl].
  rewrite Hr. f_equal. now apply IH.
Qed.

(** What the answer of a list method is, as a list of tasks. *)
Lemma listed_exactly (keep : Task -> bool) (db : Database) :
  populated db -> pk_unique db ->
  let ts := map task_of
              (sort_by (fun r => task_env r "id")
                 (filter (fun r => keep (task_of r)) (tasks db))) in
  Permutation ts (filter keep (stored db)) /\ ascending ts.
Proof.
  intros Hpop Hpk ts. split.
  - rewrite (stored_populated db Hpop), filter_map_swap.
    apply Permutation_map, sort_by_perm.
  - apply ascending_sorted_rows. now apply NoDup_map_filter.
Qed.

(** ** Tasks *)

Lemma where_Tasks (taskID authorID : Z) (r : TaskRow) :
  complete r = true ->
  satisfies [VInt taskID; VInt authorID]
    (And (wildcard 1 "id") (wildcard 2 "author_id")) (task_env r)
  = wanted taskID authorID (task_of r).
Proof.
  destruct r as [i [o|] [c|] [a|] [g|] [t|] [b|]];
    cbn; intros H; try discriminate H.
  unfold satisfies, wildcard, wanted, task_env, param; cbn.
  destruct (taskID =? 0), (i =? taskID), (authorID =? 0), (a =? authorID);
    reflexivity.
Qed.

Lemma wanted_iff (taskID authorID : Z) (t : Task) :
  wanted taskID authorID t = true <->
  (taskID = 0 \/ ID t = taskID) /\ (authorID = 0 \/ AuthorID t = authorID).
Proof.
  unfold wanted.
  rewrite andb_true_iff, !orb_true_iff, !Z.eqb_eq. reflexivity.
Qed.

(** The driver accepts the two arguments of [Tasks] exactly when both fit
    the four-byte integer that [$1 = 0] and [$2 = 0] make of them. *)
Lemma encode_one_fits (ty : int_type) (z : Z) :
  encode_one ty (VInt z) = None <-> fits ty z = true.
Proof.
  unfold encode_one. destruct (fits ty z).
  - split; reflexivity.
  - destruct (int_max ty <? z); split; discriminate.
Qed.

Lemma encode_Tasks (taskID authorID : Z) :
  encode (param_types (plan stTasks)) [VInt taskID; VInt authorID] = None
  <-> in_int4 taskID /\ in_int4 authorID.
Proof.
  unfold in_int4. rewrite <- !encode_one_fits.
  change (encode (param_types (plan stTasks))
            [VInt taskID; VInt authorID])
    with (match encode_one Int4 (VInt taskID) with
          | Some e => Some e
          | None =>
              match encode_one Int4 (VInt authorID) with
              | Some e => Some e
              | None => None
              end
          end).
  destruct (encode_one Int4 (VInt taskID)),
    (encode_one Int4 (VInt authorID)); split;
    try discriminate; try (intros [? ?]; discriminate); auto.
Qed.

(** C1, amended.  For arguments that fit the store's four-byte integer,
    against a store that answers, whose [tasks] table has no NULL and
    has [id] as a key, [Tasks taskID authorID] returns, without error and
    without changing the store, exactly the stored tasks [t] with
    ([taskID = 0] or [ID t = taskID]) and ([authorID = 0] or
    [AuthorID t = authorID]), in strictly ascending order of [ID].  In
    particular [Tasks 0 0] returns every stored task, and when no stored
    task passes the filter the result is the empty list, still without
    error. *)
Theorem Tasks_filtered_ascending (taskID authorID : Z) (p : Pool) :
  in_int4 taskID ->
  in_int4 authorID ->
  next_fault p = Healthy ->
  populated (data p) ->
  pk_unique (data p) ->
  exists ts,
    fst (Tasks taskID authorID p) = (ts, None) /\
    data (snd (Tasks taskID authorID p)) = data p /\
    Permutation ts (filter (wanted taskID authorID) (stored (data p))) /\
    (forall t, In t ts <->
               In t (stored (data p)) /\
               (taskID = 0 \/ ID t = taskID) /\
               (authorID = 0 \/ AuthorID t = authorID)) /\
    ascending ts /\
    (taskID = 0 -> authorID = 0 -> Permutation ts (stored (data p))) /\
    ((forall t, In t (stored (data p)) ->
                wanted taskID authorID t = false) -> ts = []).
Proof.
  intros Hid Hau Hf Hpop Hpk.
  pose proof (list_method_healthy stTasks _ [VInt taskID; VInt authorID]
                (wanted taskID authorID) p eq_refl
                (proj2 (encode_Tasks taskID authorID) (conj Hid Hau))
                (where_Tasks taskID authorID) Hf Hpop) as Hrun.
  destruct (listed_exactly (wanted taskID authorID) (data p) Hpop Hpk)
    as [Hperm Hasc].
  eexists. unfold Tasks. rewrite Hrun. cbn [fst snd served data].
  split; [reflexivity|]. split; [reflexivity|].
  split; [exact Hperm|]. split; [|split; [exact Hasc|split]].
  - intros t. split.
    + intros Hin. apply (Permutation_in _ Hperm) in Hin.
      apply filter_In in Hin as [Hin Hw]. now rewrite <- wanted_iff.
    + intros [Hin Hw]. apply (Permutation_in _ (Permutation_sym Hperm)).
      apply filter_In. now rewrite wanted_iff.
  - intros -> ->. eapply perm_trans; [exact Hperm|].
    erewrite filter_ext; [rewrite filter_true; apply Permutation_refl|].
    reflexivity.
  - intros Hnone. apply Permutation_nil. apply Permutation_sym.
    eapply perm_trans; [exact Hperm|].
    erewrite filter_ext_in; [rewrite filter_false; apply perm_nil|].
    exact Hnone.
Qed.

(** ** TasksByAuthor *)

Lemma where_TasksByAuthor (authorID : Z) (r : TaskRow) :
  complete r = true ->
  satisfies [VInt authorID] (Eq (Col "author_id") (Param 1)) (task_env r)
  = written_by authorID (task_of r).
Proof.
  destruct r as [i [o|] [c|] [a|] [g|] [t|] [b|]];
    cbn; intros H; try discriminate H.
  unfold satisfies, written_by, task_env, param; cbn.
  destruct (a =? authorID); reflexivity.
Qed.

(** C8.  Against a store that answers, whose [tasks] table has no NULL and
    has [id] as a key, [TasksByAuthor authorID] returns, without error,
    exactly the stored tasks whose [AuthorID] is [authorID], in strictly
    ascending order of [ID], and the empty list when there is none.  This
    holds for [authorID = 0] as for any other value: 0 selects the tasks
    whose author is 0, not all tasks. *)
Theorem TasksByAuthor_literal (authorID : Z) (p : Pool) :
  next_fault p = Healthy ->
  populated (data p) ->
  pk_unique (data p) ->
  exists ts,
    fst (TasksByAuthor authorID p) = (ts, None) /\
    data (snd (TasksByAuthor authorID p)) = data p /\
    Permutation ts (filter (written_by authorID) (stored (data p))) /\
    (forall t, In t ts <->
               In t (stored (data p)) /\ AuthorID t = authorID) /\
    ascending ts /\
    ((forall t, In t (stored (data p)) -> AuthorID t <> authorID) ->
     ts = []).
Proof.
  intros Hf Hpop Hpk.
  pose proof (list_method_healthy stTasksByAuthor _ [VInt authorID]
                (written_by authorID) p eq_refl eq_refl
                (where_TasksByAuthor authorID) Hf Hpop) as Hrun.
  destruct (listed_exactly (written_by authorID) (data p) Hpop Hpk)
    as [Hperm Hasc].
  eexists. unfold TasksByAuthor. rewrite Hrun. cbn [fst snd served data].
  split; [reflexivity|]. split; [reflexivity|].
  split; [exact Hperm|]. split; [|split; [exact Hasc|]].
  - intros t. split.
    + intros Hin. apply (Permutation_in _ Hperm) in Hin.
      apply filter_In in Hin as [Hin Hw]. split; [exact Hin|].
      now apply Z.eqb_eq.
    + intros [Hin Hw]. apply (Permutation_in _ (Permutation_sym Hperm)).
      apply filter_In. split; [exact Hin|]. now apply Z.eqb_eq.
  - intros Hnone. apply Permutation_nil. apply Permutation_sym.
    eapply perm_trans; [exact Hperm|].
    erewrite filter_ext_in; [rewrite filter_false; apply perm_nil|].
    intros t Ht. apply Z.eqb_neq. now apply Hnone.
Qed.

(** ** GetTaskByID *)

Lemma where_id (args : list sqlval) (n : nat) (id : Z) (r : TaskRow) :
  param args n = VInt id ->
  satisfies args (Eq (Col "id") (Param n)) (task_env r) = (c_id r =? id).
Proof.
  intros Hn. unfold satisfies. cbn [eval]. rewrite Hn.
  unfold task_env. cbn. destruct (c_id r =? id); reflexivity.
Qed.

Lemma QueryRow_get (id : Z) (p : Pool) :
  QueryRow stGetTaskByID [VInt id] p
  = (match next_fault p with
     | Healthy =>
         {| pending := map wire (with_id id (data p));
            closing_err := None |}
     | Reject msg =>
         {| pending := []; closing_err := Some (PgError msg) |}
     | Broken k msg =>
         {| pending := firstn k (map wire (with_id id (data p)));
            closing_err := Some (PgError msg) |}
     end,
     served stGetTaskByID [VInt id] p).
Proof.
  assert (Hsel : run_select
            {| columns := task_columns; from := FromTasks;
               where_ := Eq (Col "id") (Param 1); order_by := None |}
            [VInt id] (data p) = map wire (with_id id (data p))).
  { unfold run_select, with_id. cbn [from columns where_ order_by ordered].
    f_equal. apply filter_ext. intros r. now apply where_id. }
  unfold QueryRow, bind, roundtrip.
  destruct (next_fault p) as [|msg|k msg]; try unbounded;
    cbn [plan stGetTaskByID exec]; try rewrite Hsel; reflexivity.
Qed.

Lemma with_id_absent (id : Z) (db : Database) :
  with_id id db = [] <-> absent id db.
Proof.
  unfold with_id, absent. split.
  - intros H r Hr E.
    assert (Hin : In r (filter (fun r => c_id r =? id) (tasks db))).
    { apply filter_In. split; [exact Hr|]. now apply Z.eqb_eq. }
    rewrite H in Hin. exact Hin.
  - intros H. induction (tasks db) as [|r l IH]; [reflexivity|].
    cbn. destruct (Z.eqb_spec (c_id r) id) as [E|E].
    + exfalso. apply (H r); [now left | exact E].
    + apply IH. intros r' Hr'. apply H. now right.
Qed.

Lemma scan_cols_error {S : Type} (vals : list sqlval) :
  forall (ds : list (dest S)) (s : S),
    IsErrNoRows (snd (scan_cols vals ds s)) = false.
Proof.
  induction vals as [|v vals IH]; intros ds s; [reflexivity|].
  destruct ds as [|d ds]; [reflexivity|].
  destruct d, v; cbn; try reflexivity; apply IH.
Qed.

Lemma Scan_error {S : Type} (vals : list sqlval) (ds : list (dest S))
    (s : S) :
  IsErrNoRows (snd (Scan vals ds s)) = false.
Proof.
  unfold Scan.
  destruct (Nat.eqb (List.length vals) (List.length ds));
    [apply scan_cols_error | reflexivity].
Qed.

Lemma GetTaskByID_run (id : Z) (p : Pool) :
  GetTaskByID id p
  = (let (t, err) :=
       RowScan (fst (QueryRow stGetTaskByID [VInt id] p)) taskDests zeroTask
     in match err with
        | Some e => (zeroTask, Some e)
        | None => (t, None)
        end,
     served stGetTaskByID [VInt id] p).
Proof.
  unfold GetTaskByID, bind. rewrite QueryRow_get. cbn [fst].
  destruct (RowScan _ taskDests zeroTask) as [t [e|]]; reflexivity.
Qed.

Lemma GetTaskByID_found (id : Z) (p : Pool) (r : TaskRow)
    (others : list TaskRow) :
  next_fault p = Healthy ->
  with_id id (data p) = r :: others ->
  complete r = true ->
  fst (GetTaskByID id p) = (task_of r, None).
Proof.
  intros Hf Hrows Hr. rewrite GetTaskByID_run, QueryRow_get, Hf, Hrows.
  cbn [fst map]. unfold RowScan. cbn [pending closing_err].
  now rewrite (Scan_complete r Hr).
Qed.

Lemma GetTaskByID_missing (id : Z) (p : Pool) :
  next_fault p = Healthy ->
  absent id (data p) ->
  fst (GetTaskByID id p) = (zeroTask, Some ErrNoRows).
Proof.
  intros Hf Habs. apply with_id_absent in Habs.
  rewrite GetTaskByID_run, QueryRow_get, Hf, Habs. reflexivity.
Qed.

(** [GetTaskByID] reports [ErrNoRows] exactly when the store answered and
    holds no row with the id. *)
Lemma GetTaskByID_ErrNoRows_iff (id : Z) (p : Pool) :
  IsErrNoRows (snd (fst (GetTaskByID id p))) = true <->
  next_fault p = Healthy /\ absent id (data p).
Proof.
  split.
  - rewrite GetTaskByID_run, QueryRow_get. cbn [fst].
    unfold RowScan.
    destruct (next_fault p) as [|msg|k msg]; cbn [pending closing_err].
    + destruct (with_id id (data p)) as [|r others] eqn:Hrows.
      * intros _. split; [reflexivity|]. now apply with_id_absent.
      * cbn [map].
        pose proof (Scan_error (wire r) taskDests zeroTask) as Hscan.
        destruct (Scan (wire r) taskDests zeroTask) as [t [e|]];
          cbn in *; congruence.
    + cbn. discriminate.
    + destruct (firstn k (map wire (with_id id (data p)))) as [|v vs].
      * cbn. discriminate.
      * pose proof (Scan_error v taskDests zeroTask) as Hscan.
        destruct (Scan v taskDests zeroTask) as [t [e|]];
          cbn in *; congruence.
  - intros [Hf Habs]. now rewrite (GetTaskByID_missing id p Hf Habs).
Qed.

(** C3.  When the store answers and holds no task with the id,
    [GetTaskByID id] fails with [ErrNoRows] (and the zero task).  That
    error is told apart from every other by [IsErrNoRows], a test on the
    error value that reads no message: on any pool, [GetTaskByID] yields
    an error recognised by [IsErrNoRows] only if the round trip met no
    fault and the id is absent, so a failure of the store or of the
    connection is never mistaken for a missing task. *)
Theorem GetTaskByID_not_found (id : Z) (p : Pool) :
  next_fault p = Healthy ->
  absent id (data p) ->
  fst (GetTaskByID id p) = (zeroTask, Some ErrNoRows) /\
  IsErrNoRows (snd (fst (GetTaskByID id p))) = true /\
  (forall (id' : Z) (q : Pool),
      next_fault q <> Healthy ->
      IsErrNoRows (snd (fst (GetTaskByID id' q))) = false) /\
  (forall (id' : Z) (q : Pool),
      IsErrNoRows (snd (fst (GetTaskByID id' q))) = true ->
      next_fault q = Healthy /\ absent id' (data q)).
Proof.
  intros Hf Habs. split; [now apply GetTaskByID_missing|].
  split; [now apply GetTaskByID_ErrNoRows_iff|]. split.
  - intros id' q Hq.
    destruct (IsErrNoRows (snd (fst (GetTaskByID id' q)))) eqn:E;
      [|reflexivity].
    apply GetTaskByID_ErrNoRows_iff in E as [E _]. contradiction.
  - intros id' q. apply GetTaskByID_ErrNoRows_iff.
Qed.

(** C10.  Whenever [GetTaskByID] returns an error, the task it returns
    with it is the zero task, whatever [Scan] had already written into
    the local variable. *)
Theorem GetTaskByID_error_zero (id : Z) (p : Pool) (t : Task) (e : error) :
  fst (GetTaskByID id p) = (t, Some e) -> t = zeroTask.
Proof.
  rewrite GetTaskByID_run. cbn [fst].
  destruct (RowScan _ taskDests zeroTask) as [t' [e'|]]; congruence.
Qed.

(** ** Calm stretches *)

Lemma calm_next (n : nat) (p : Pool) :
  calm (S n) p -> next_fault p = Healthy.
Proof.
  intros H. specialize (H 0%nat (Nat.lt_0_succ n)).
  unfold next_fault. destruct (faults p); [reflexivity | exact H].
Qed.

Lemma calm_tl (n : nat) (p q : Pool) :
  calm (S n) p -> faults q = List.tl (faults p) -> calm n q.
Proof.
  intros H E k Hk. rewrite E. specialize (H (S k)).
  destruct (faults p) as [|f fs]; cbn in *.
  - now destruct k.
  - apply H. lia.
Qed.

Lemma with_tasks_same (db : Database) : with_tasks db (tasks db) = db.
Proof. now destruct db. Qed.

(** ** UpdateTask *)

Lemma assign_update (id : Z) (t : Task) (r : TaskRow) :
  assign (inputs (CallUpdateTask id t)) (task_env r)
    [("opened", Param 1); ("closed", Param 2); ("author_id", Param 3);
     ("assigned_id", Param 4); ("title", Param 5); ("content", Param 6)] r
  = Some (row_of (c_id r) t).
Proof. reflexivity. Qed.

Lemma update_rows_overwrite (id : Z) (t : Task) (rows : list TaskRow) :
  update_rows (inputs (CallUpdateTask id t))
    [("opened", Param 1); ("closed", Param 2); ("author_id", Param 3);
     ("assigned_id", Param 4); ("title", Param 5); ("content", Param 6)]
    (Eq (Col "id") (Param 7)) rows
  = Some (map (overwrite id t) rows,
          List.length (filter (fun r => c_id r =? id) rows)).
Proof.
  induction rows as [|r rows IH]; [reflexivity|].
  cbn [update_rows]. rewrite IH.
  rewrite (where_id (inputs (CallUpdateTask id t)) 7 id r eq_refl).
  rewrite assign_update. cbn [map filter].
  assert (Ho : overwrite id t r
               = if c_id r =? id then row_of (c_id r) t else r)
    by reflexivity.
  rewrite Ho. destruct (c_id r =? id); reflexivity.
Qed.

Lemma Exec_update (id : Z) (t : Task) (p : Pool) :
  next_fault p = Healthy ->
  Exec stUpdateTask (inputs (CallUpdateTask id t)) p
  = (({| RowsAffected := List.length (with_id id (data p)) |}, None),
     {| data := with_tasks (data p)
                  (map (overwrite id t) (tasks (data p)));
        faults := List.tl (faults p);
        sent := (sent p ++
                 [(text stUpdateTask, inputs (CallUpdateTask id t))])%list
     |}).
Proof.
  intros Hf. unfold Exec, bind, roundtrip. rewrite Hf. unbounded.
  cbn [plan stUpdateTask exec]. rewrite update_rows_overwrite.
  reflexivity.
Qed.

Lemma overwrite_absent (id : Z) (t : Task) (rows : list TaskRow) :
  (forall r, In r rows -> c_id r <> id) ->
  map (overwrite id t) rows = rows.
Proof.
  induction rows as [|r rows IH]; intros H; [reflexivity|].
  cbn. rewrite IH by (intros r' Hr'; apply H; now right).
  unfold overwrite. destruct (Z.eqb_spec (c_id r) id) as [E|E];
    [|reflexivity].
  exfalso. apply (H r); [now left | exact E].
Qed.

Lemma with_id_overwrite (id : Z) (t : Task) (rows : list TaskRow) :
  filter (fun r => c_id r =? id) (map (overwrite id t) rows)
  = map (fun _ => row_of id t) (filter (fun r => c_id r =? id) rows).
Proof.
  induction rows as [|r rows IH]; [reflexivity|].
  cbn [map filter].
  assert (Ho : overwrite id t r
               = if c_id r =? id then row_of (c_id r) t else r)
    by reflexivity.
  rewrite Ho. destruct (Z.eqb_spec (c_id r) id) as [E|E].
  - cbn [row_of c_id]. rewrite E, Z.eqb_refl. cbn [map]. now rewrite IH.
  - destruct (Z.eqb_spec (c_id r) id); [contradiction|]. exact IH.
Qed.

Lemma map_c_id_overwrite (id : Z) (t : Task) (rows : list TaskRow) :
  map c_id (map (overwrite id t) rows) = map c_id rows.
Proof.
  induction rows as [|r rows IH]; [reflexivity|].
  cbn. rewrite IH. unfold overwrite.
  destruct (c_id r =? id); reflexivity.
Qed.

(** C5.  When the store answers twice and holds a task with the id,
    [UpdateTask id newValues] succeeds and replaces, in every row with
    that id and in no other, the six columns [opened], [closed],
    [author_id], [assigned_id], [title], [content] by those of
    [newValues]; the [id] column of no row changes.  A following
    [GetTaskByID id] returns [newValues] with its [ID] set to [id]:
    nothing of the earlier row but its id survives. *)
Theorem UpdateTask_overwrites (id : Z) (newValues : Task) (p : Pool) :
  calm 2 p ->
  (exists r, In r (tasks (data p)) /\ c_id r = id) ->
  fst (UpdateTask id newValues p) = None /\
  tasks (data (snd (UpdateTask id newValues p)))
    = map (overwrite id newValues) (tasks (data p)) /\
  map c_id (tasks (data (snd (UpdateTask id newValues p))))
    = map c_id (tasks (data p)) /\
  fst (GetTaskByID id (snd (UpdateTask id newValues p)))
    = ({| ID := id;
          Opened := Opened newValues;
          Closed := Closed newValues;
          AuthorID := AuthorID newValues;
          AssignedID := AssignedID newValues;
          Title := Title newValues;
          Content := Content newValues |}, None).
Proof.
  intros Hcalm (r & Hr & Hid).
  pose proof (Exec_update id newValues p (calm_next _ _ Hcalm)) as Hexec.
  unfold UpdateTask, bind. cbn [inputs] in Hexec. rewrite Hexec.
  cbn [fst snd ret data with_tasks tasks].
  split; [reflexivity|]. split; [reflexivity|].
  split; [apply map_c_id_overwrite|].
  destruct (with_id id (data p)) as [|r0 others] eqn:Hrows.
  { exfalso. apply with_id_absent in Hrows. now apply (Hrows r). }
  eapply (GetTaskByID_found id _ (row_of id newValues)
            (map (fun _ => row_of id newValues) others)).
  - eapply calm_next, calm_tl; [exact Hcalm | reflexivity].
  - unfold with_id. cbn [data with_tasks tasks].
    rewrite with_id_overwrite. fold (with_id id (data p)).
    now rewrite Hrows.
  - reflexivity.
Qed.

(** C6.  When the store answers and holds no task with the id,
    [UpdateTask id task] returns no error; the statement it executes
    reports zero rows affected, and the store is left as it was. *)
Theorem UpdateTask_missing_id (id : Z) (task : Task) (p : Pool) :
  next_fault p = Healthy ->
  absent id (data p) ->
  fst (UpdateTask id task p) = None /\
  fst (Exec stUpdateTask (inputs (CallUpdateTask id task)) p)
    = ({| RowsAffected := 0 |}, None) /\
  data (snd (UpdateTask id task p)) = data p.
Proof.
  intros Hf Habs.
  pose proof (Exec_update id task p Hf) as Hexec.
  rewrite (proj2 (with_id_absent id (data p)) Habs) in Hexec.
  rewrite (overwrite_absent id task _ Habs), with_tasks_same in Hexec.
  unfold UpdateTask, bind. cbn [inputs] in *. rewrite Hexec.
  repeat split.
Qed.

(** ** DeleteTaskByID *)

Lemma Exec_delete (id : Z) (p : Pool) :
  next_fault p = Healthy ->
  exists n,
    Exec stDeleteTaskByID [VInt id] p
    = (({| RowsAffected := n |}, None),
       {| data := with_tasks (data p)
                    (filter (fun r => negb (c_id r =? id))
                       (tasks (data p)));
          faults := List.tl (faults p);
          sent := (sent p ++ [(text stDeleteTaskByID, [VInt id])])%list
       |}).
Proof.
  intros Hf. eexists. unfold Exec, bind, roundtrip. rewrite Hf.
  unbounded.
  cbn [plan stDeleteTaskByID exec].
  erewrite filter_ext; [reflexivity|].
  intros r. cbn beta. now rewrite (where_id [VInt id] 1 id r eq_refl).
Qed.

Lemma filter_other_absent (id : Z) (rows : list TaskRow) :
  (forall r, In r rows -> c_id r <> id) ->
  filter (fun r => negb (c_id r =? id)) rows = rows.
Proof.
  induction rows as [|r rows IH]; intros H; [reflexivity|].
  cbn. destruct (Z.eqb_spec (c_id r) id) as [E|E].
  - exfalso. apply (H r); [now left | exact E].
  - cbn. f_equal. apply IH. intros r' Hr'. apply H. now right.
Qed.

Lemma DeleteTaskByID_healthy (id : Z) (p : Pool) :
  next_fault p = Healthy ->
  fst (DeleteTaskByID id p) = None /\
  tasks (data (snd (DeleteTaskByID id p)))
    = filter (fun r => negb (c_id r =? id)) (tasks (data p)) /\
  faults (snd (DeleteTaskByID id p)) = List.tl (faults p) /\
  (absent id (data p) -> data (snd (DeleteTaskByID id p)) = data p).
Proof.
  intros Hf. destruct (Exec_delete id p Hf) as [n Hexec].
  unfold DeleteTaskByID, bind. rewrite Hexec.
  cbn [fst snd ret data faults with_tasks tasks].
  repeat split. intros Habs.
  rewrite (filter_other_absent id _ Habs). apply with_tasks_same.
Qed.

Lemma GetTaskByID_faults (id : Z) (p : Pool) :
  faults (snd (GetTaskByID id p)) = List.tl (faults p) /\
  data (snd (GetTaskByID id p)) = data p.
Proof. rewrite GetTaskByID_run. split; reflexivity. Qed.

(** C7.  While the store answers, [DeleteTaskByID id] returns no error
    whether or not a task with the id exists; if none exists the store is
    left as it was.  After it, the rows with that id are gone and the
    others remain, [GetTaskByID id] fails with [ErrNoRows], and a second
    [DeleteTaskByID id] again returns no error and changes nothing. *)
Theorem DeleteTaskByID_idempotent (id : Z) (p : Pool) :
  calm 3 p ->
  let p1 := snd (DeleteTaskByID id p) in
  let p2 := snd (GetTaskByID id p1) in
  let p3 := snd (DeleteTaskByID id p2) in
  fst (DeleteTaskByID id p) = None /\
  (absent id (data p) -> data p1 = data p) /\
  (forall r, In r (tasks (data p1)) <->
             In r (tasks (data p)) /\ c_id r <> id) /\
  fst (GetTaskByID id p1) = (zeroTask, Some ErrNoRows) /\
  fst (DeleteTaskByID id p2) = None /\
  data p3 = data p1.
Proof.
  intros Hcalm p1 p2 p3.
  destruct (DeleteTaskByID_healthy id p (calm_next _ _ Hcalm))
    as (Herr & Hrows & Hfaults & Hsame).
  fold p1 in Hrows, Hfaults, Hsame.
  assert (Hcalm1 : calm 2 p1) by (eapply calm_tl; eauto).
  assert (Hgone : absent id (data p1)).
  { intros r Hr E. rewrite Hrows in Hr. apply filter_In in Hr as [_ Hr].
    rewrite E, Z.eqb_refl in Hr. discriminate Hr. }
  destruct (GetTaskByID_faults id p1) as [Hfaults2 Hdata2].
  fold p2 in Hfaults2, Hdata2.
  assert (Hcalm2 : calm 1 p2) by (eapply calm_tl; eauto).
  destruct (DeleteTaskByID_healthy id p2 (calm_next _ _ Hcalm2))
    as (Herr3 & _ & _ & Hsame3).
  fold p3 in Hsame3.
  split; [exact Herr|]. split; [exact Hsame|]. split; [|split; [|split]].
  - intros r. rewrite Hrows, filter_In, negb_true_iff, Z.eqb_neq.
    reflexivity.
  - apply GetTaskByID_missing; [eapply calm_next; eauto | exact Hgone].
  - exact Herr3.
  - rewrite <- Hdata2. apply Hsame3. now rewrite Hdata2.
Qed.

(** ** NewTask *)

Lemma QueryRow_insert (t : Task) (p : Pool) :
  next_fault p = Healthy ->
  seq_ahead (data p) ->
  QueryRow stNewTask [VText (Title t); VText (Content t)] p
  = ({| pending := [[VInt (tasks_id_seq (data p))]];
        closing_err := None |},
     {| data := with_tasks (with_seq (data p) (tasks_id_seq (data p) + 1))
                  (tasks (data p) ++ [inserted (data p) t]);
        faults := List.tl (faults p);
        sent := (sent p ++ [(text stNewTask,
                             [VText (Title t); VText (Content t)])])%list
     |}).
Proof.
  intros Hf Hseq. unfold QueryRow, bind, roundtrip. rewrite Hf.
  unbounded.
  cbn [plan stNewTask exec].
  change (assign [VText (Title t); VText (Content t)] no_row
            (combine ["title"; "content"] [Param 1; Param 2])
            (blank_row (data p)))
    with (Some (inserted (data p) t)).
  assert (Hfree : id_taken (data p) (c_id (inserted (data p) t)) = false).
  { unfold id_taken. cbn [inserted c_id].
    destruct (existsb _ (tasks (data p))) eqn:E; [|reflexivity].
    apply existsb_exists in E as (r & Hr & E).
    apply Z.eqb_eq in E. specialize (Hseq r Hr). lia. }
  cbv beta iota. rewrite Hfree. reflexivity.
Qed.

Lemma seq_ahead_absent (db : Database) :
  seq_ahead db -> absent (tasks_id_seq db) db.
Proof. intros H r Hr E. specialize (H r Hr). lia. Qed.

Lemma NewTask_reads_two_fields (t t' : Task) (p : Pool) :
  Title t' = Title t -> Content t' = Content t ->
  NewTask t' p = NewTask t p.
Proof. intros Ht Hc. unfold NewTask. now rewrite Ht, Hc. Qed.

(** C4.  When the store answers twice, its sequence is ahead of the ids
    in use and its defaults are not NULL, [NewTask t] returns without
    error an id that no stored task had; the result and the new state
    depend on [t] through [Title] and [Content] alone; and a following
    [GetTaskByID] on the returned id yields a task with that [ID], the
    [Title] and [Content] of [t], and the store's defaults in the four
    other fields. *)
Theorem NewTask_then_GetTaskByID (t : Task) (p : Pool) :
  calm 2 p ->
  seq_ahead (data p) ->
  defaults_set (data p) ->
  exists id got,
    fst (NewTask t p) = (id, None) /\
    absent id (data p) /\
    fst (GetTaskByID id (snd (NewTask t p))) = (got, None) /\
    ID got = id /\ Title got = Title t /\ Content got = Content t /\
    Opened got = or_zero (d_opened (defaults (data p))) /\
    Closed got = or_zero (d_closed (defaults (data p))) /\
    AuthorID got = or_zero (d_author_id (defaults (data p))) /\
    AssignedID got = or_zero (d_assigned_id (defaults (data p))) /\
    (forall t', Title t' = Title t -> Content t' = Content t ->
                NewTask t' p = NewTask t p).
Proof.
  intros Hcalm Hseq Hdef.
  exists (tasks_id_seq (data p)), (task_of (inserted (data p) t)).
  pose proof (NewTask_reads_two_fields t) as Hsame.
  pose proof (QueryRow_insert t p (calm_next _ _ Hcalm) Hseq) as Hrow.
  assert (Hnew : NewTask t p = ((tasks_id_seq (data p), None),
            snd (QueryRow stNewTask [VText (Title t); VText (Content t)] p))).
  { unfold NewTask, bind. rewrite Hrow. reflexivity. }
  rewrite Hnew, Hrow. cbn [fst snd].
  split; [reflexivity|]. split; [now apply seq_ahead_absent|].
  split.
  - eapply (GetTaskByID_found _ _ (inserted (data p) t) []).
    + eapply calm_next, calm_tl; [exact Hcalm | reflexivity].
    + unfold with_id. cbn [data with_tasks tasks].
      rewrite filter_app.
      change (filter (fun r => c_id r =? tasks_id_seq (data p))
                (tasks (data p)))
        with (with_id (tasks_id_seq (data p)) (data p)).
      rewrite (proj2 (with_id_absent _ _) (seq_ahead_absent _ Hseq)).
      cbn [filter app inserted c_id]. rewrite Z.eqb_refl. reflexivity.
    + unfold defaults_set in Hdef. unfold complete. cbn [inserted
        c_opened c_closed c_author_id c_assigned_id c_title c_content
        is_some]. now rewrite Hdef.
  - repeat split. intros t' Ht Hc.
    rewrite (Hsame t' p Ht Hc). now rewrite Hnew, Hrow.
Qed.

(** ** The texts sent *)

(** Each method is one round trip on the statement of its operation,
    with the values of the call as bound arguments. *)
Lemma after_roundtrip (c : call) (p : Pool) :
  after c p = snd (roundtrip (statement_of (op_of c)) (inputs c) p).
Proof.
  destruct c; cbn [after op_of statement_of inputs];
    unfold Tasks, NewTask, TasksByAuthor, TasksByLabel, GetTaskByID,
      UpdateTask, DeleteTaskByID, Query, QueryRow, Exec, bind;
    match goal with
    | |- context [roundtrip ?st ?args p] =>
        destruct (roundtrip st args p) as [[e|rows n [e|]] p']
    end;
    cbn [ret fst snd]; try reflexivity;
    match goal with
    | |- context [RowScan ?r ?ds ?s] =>
        destruct (RowScan r ds s) as [t [e'|]]; reflexivity
    end.
Qed.

Lemma roundtrip_data (st : statement) (args : list sqlval) (p : Pool) :
  data (snd (roundtrip st args p))
  = match next_fault p with
    | Reject _ => data p
    | _ =>
        match encode (param_types (plan st)) args with
        | Some _ => data p
        | None => fst (exec (plan st) args (data p))
        end
    end.
Proof.
  unfold roundtrip.
  destruct (next_fault p) as [|msg|k msg]; [| reflexivity |];
    (destruct (encode (param_types (plan st)) args); [reflexivity|]);
    destruct (exec (plan st) args (data p)) as [db' [rows n|why]];
    reflexivity.
Qed.

(** C9.  Every call hands the pool exactly one request.  Its text is the
    text of the operation called, a constant that does not depend on the
    arguments or on the state of the pool; the arguments travel beside
    it as the list of bound values, in the order of the placeholders.
    Each text is, up to layout, the printed form of the statement the
    store executes for it, and the WHERE clause of [Tasks] is the
    conjunction of two filters of the form [($n = 0 OR column = $n)]. *)
Theorem one_static_text_per_operation :
  (forall (c : call) (p : Pool),
      sent (after c p)
      = (sent p ++ [(text (statement_of (op_of c)), inputs c)])%list) /\
  (forall o : op,
      layout_free (text (statement_of o))
      = render (plan (statement_of o))) /\
  plan stTasks
  = Select {| columns := task_columns; from := FromTasks;
              where_ := And (wildcard 1 "id") (wildcard 2 "author_id");
              order_by := Some "id" |} /\
  render_expr (wildcard 1 "id") = "($1 = 0 OR id = $1)" /\
  render_expr (wildcard 2 "author_id") = "($2 = 0 OR author_id = $2)".
Proof.
  split; [|split; [exact texts_are_plans|repeat split]].
  intros c p. rewrite after_roundtrip. apply roundtrip_sent.
Qed.

(** ** TasksByLabel *)

Lemma NoDup_flat_map {A B : Type} (f : A -> list B) (l : list A) :
  NoDup l ->
  (forall x, In x l -> NoDup (f x)) ->
  (forall x y b, In x l -> In y l -> In b (f x) -> In b (f y) -> x = y) ->
  NoDup (flat_map f l).
Proof.
  induction l as [|a l IH]; cbn; intros Hl Hf Hapart; [constructor|].
  apply NoDup_cons_iff in Hl as [Ha Hl].
  apply NoDup_app.
  - apply Hf. now left.
  - apply IH; [exact Hl | intros; apply Hf; now right |].
    intros x y b Hx Hy. apply Hapart; now right.
  - intros b Hb Hb'. apply in_flat_map in Hb' as (y & Hy & Hby).
    apply Ha. rewrite (Hapart a y b); auto.
Qed.

Lemma in_cross (db : Database) (t : TaskRow) (tl : TaskLabelRow)
    (l : LabelRow) :
  In (t, tl, l) (cross db) <->
  In t (tasks db) /\ In tl (task_labels db) /\ In l (labels db).
Proof.
  unfold cross. rewrite in_flat_map. split.
  - intros (t' & Ht & H). apply in_flat_map in H as (tl' & Htl & H).
    apply in_map_iff in H as (l' & E & Hl). now inversion E; subst.
  - intros (Ht & Htl & Hl). exists t. split; [exact Ht|].
    apply in_flat_map. exists tl. split; [exact Htl|].
    apply in_map_iff. now exists l.
Qed.

Lemma NoDup_cross (db : Database) :
  NoDup (tasks db) -> NoDup (task_labels db) -> NoDup (labels db) ->
  NoDup (cross db).
Proof.
  intros Ht Htl Hl. unfold cross. apply NoDup_flat_map; [exact Ht | |].
  - intros t _. apply NoDup_flat_map; [exact Htl | |].
    + intros tl _. apply NoDup_map_NoDup_ForallPairs; [|exact Hl].
      intros x y _ _ E. now inversion E.
    + intros x y b _ _ Hx Hy.
      apply in_map_iff in Hx as (lx & <- & _).
      apply in_map_iff in Hy as (ly & E & _). now inversion E.
  - intros x y b _ _ Hx Hy.
    apply in_flat_map in Hx as (tlx & _ & Hx).
    apply in_flat_map in Hy as (tly & _ & Hy).
    apply in_map_iff in Hx as (lx & <- & _).
    apply in_map_iff in Hy as (ly & E & _). now inversion E.
Qed.

Lemma linked_iff (label : string) (t : TaskRow) (tl : TaskLabelRow)
    (l : LabelRow) :
  linked label (t, tl, l) = true <->
  tl_task_id tl = c_id t /\ tl_label_id tl = l_id l /\ l_label l = label.
Proof.
  unfold linked.
  rewrite !andb_true_iff, !Z.eqb_eq, String.eqb_eq. intuition congruence.
Qed.

Lemma where_TasksByLabel (label : string) (j : joined) :
  (satisfies [VText label] (Eq (Col "t.id") (Col "tl.task_id"))
     (join_env j) &&
   satisfies [VText label] (Eq (Col "tl.label_id") (Col "l.id"))
     (join_env j) &&
   satisfies [VText label] (Eq (Col "l.label") (Param 1)) (join_env j))%bool
  = linked label j.
Proof.
  destruct j as [[t tl] l]. unfold satisfies, linked, join_env, param; cbn.
  destruct (c_id t =? tl_task_id tl), (tl_label_id tl =? l_id l),
    (String.eqb (l_label l) label); reflexivity.
Qed.

Lemma wire_join (j : joined) :
  project (map (fun c => "t." ++ c) task_columns) (join_env j)
  = wire (join_task j).
Proof. destruct j as [[t tl] l]. reflexivity. Qed.

Lemma key_join (j : joined) :
  join_env j "t.id" = VInt (c_id (join_task j)).
Proof. destruct j as [[t tl] l]. reflexivity. Qed.

Lemma TasksByLabel_healthy (label : string) (p : Pool) :
  next_fault p = Healthy ->
  populated (data p) ->
  TasksByLabel label p
  = ((map task_of
        (map join_task
           (sort_by (fun j => join_env j "t.id")
              (filter (linked label) (cross (data p))))),
      None),
     served stTasksByLabel [VText label] p).
Proof.
  intros Hf Hpop. unfold TasksByLabel, bind, Query, bind.
  rewrite (roundtrip_select stTasksByLabel _ [VText label] p eq_refl
             eq_refl Hf).
  cbn [ret pending closing_err run_select from columns where_ order_by
       ordered].
  rewrite (filter_ext _ _ (where_TasksByLabel label)).
  rewrite (map_ext _ _ wire_join), <- map_map.
  rewrite scanTasks_complete; [reflexivity|].
  apply forallb_forall. intros r Hr.
  apply in_map_iff in Hr as ([[t tl] l] & <- & Hj).
  apply (Permutation_in _ (sort_by_perm _ _)) in Hj.
  apply filter_In in Hj as [Hj _]. apply in_cross in Hj as [Ht _].
  unfold populated in Hpop. rewrite forallb_forall in Hpop. now apply Hpop.
Qed.

Lemma key_injective {A B : Type} (f : A -> B) (l : list A) (x y : A) :
  NoDup (map f l) -> In x l -> In y l -> f x = f y -> x = y.
Proof.
  induction l as [|a l IH]; cbn; intros Hnd Hx Hy E; [contradiction|].
  apply NoDup_cons_iff in Hnd as [Ha Hnd].
  destruct Hx as [<-|Hx], Hy as [<-|Hy].
  - reflexivity.
  - exfalso. apply Ha. rewrite E. now apply in_map.
  - exfalso. apply Ha. rewrite <- E. now apply in_map.
  - now apply IH.
Qed.

(** Two rows of the join that passed the conditions and show the same
    task id are the same row, when ids and label names are keys. *)
Lemma linked_once (db : Database) (label : string) :
  pk_unique db -> labels_keyed db ->
  ForallPairs
    (fun x y => c_id (join_task x) = c_id (join_task y) -> x = y)
    (filter (linked label) (cross db)).
Proof.
  intros Hpk [_ Hnames] [[t1 tl1] l1] [[t2 tl2] l2] H1 H2 E.
  apply filter_In in H1 as [H1 L1]. apply filter_In in H2 as [H2 L2].
  apply in_cross in H1 as (Ht1 & _ & Hl1).
  apply in_cross in H2 as (Ht2 & _ & Hl2).
  apply linked_iff in L1 as (A1 & B1 & C1).
  apply linked_iff in L2 as (A2 & B2 & C2).
  cbn [join_task fst] in E.
  assert (t1 = t2).
  { apply (key_injective c_id (tasks db)); assumption. }
  assert (l1 = l2).
  { apply (key_injective l_label (labels db)); congruence. }
  subst t2 l2. destruct tl1, tl2; cbn in *. congruence.
Qed.

(** C2, amended.  Against a store that answers, whose [tasks] table has no
    NULL and whose keys are as the schema says, [TasksByLabel label]
    returns without error the tasks associated, through [task_labels],
    with a label whose name is [label], and only those, in ascending
    order of [ID]; if moreover no row of [task_labels] occurs twice, the
    result repeats no task and the order is strict. *)
Theorem TasksByLabel_joined (label : string) (p : Pool) :
  next_fault p = Healthy ->
  populated (data p) ->
  pk_unique (data p) ->
  labels_keyed (data p) ->
  exists ts,
    fst (TasksByLabel label p) = (ts, None) /\
    data (snd (TasksByLabel label p)) = data p /\
    (forall t, In t ts <->
               exists r, In r (tasks (data p)) /\
                         labelled (data p) label r /\ t = task_of r) /\
    StronglySorted (fun a b => ID a <= ID b) ts /\
    (NoDup (task_labels (data p)) -> NoDup ts /\ ascending ts).
Proof.
  intros Hf Hpop Hpk Hlab. eexists.
  rewrite (TasksByLabel_healthy label p Hf Hpop). cbn [fst snd served data].
  split; [reflexivity|]. split; [reflexivity|].
  set (M := filter (linked label) (cross (data p))).
  set (key := fun j : joined => join_env j "t.id").
  split; [|split].
  - intros t. rewrite map_map, in_map_iff. split.
    + intros ([[r tl] l] & <- & Hj).
      apply (Permutation_in _ (sort_by_perm key M)) in Hj.
      apply filter_In in Hj as [Hj Hlink].
      apply in_cross in Hj as (Hr & Htl & Hl).
      apply linked_iff in Hlink as (A & B & C).
      exists r. split; [exact Hr|]. split; [|reflexivity].
      exists tl, l. auto.
    + intros (r & Hr & (tl & l & Htl & Hl & A & B & C) & ->).
      exists (r, tl, l). split; [reflexivity|].
      apply (Permutation_in _ (Permutation_sym (sort_by_perm key M))).
      apply filter_In. split; [now apply in_cross|].
      now apply linked_iff.
  - rewrite map_map. apply StronglySorted_map. cbn [task_of ID].
    apply (sort_by_sorted key (fun j => c_id (join_task j)) key_join).
  - intros Hassoc.
    assert (Hids : NoDup (map (fun j => c_id (join_task j))
                            (sort_by key M))).
    { eapply Permutation_NoDup;
        [apply Permutation_map, Permutation_sym, sort_by_perm|].
      apply NoDup_map_NoDup_ForallPairs; [now apply linked_once|].
      apply NoDup_filter, NoDup_cross.
      - exact (NoDup_map_inv _ _ Hpk).
      - exact Hassoc.
      - exact (NoDup_map_inv _ _ (proj1 Hlab)). }
    split.
    + apply (NoDup_map_inv ID). now rewrite !map_map.
    + rewrite map_map. apply StronglySorted_map. cbn [task_of ID].
      apply (sorted_strict (fun j => c_id (join_task j)));
        [exact Hids|].
      apply (sort_by_sorted key (fun j => c_id (join_task j)) key_join).
Qed.

(** ** The schema conditions are invariants *)

Lemma complete_row_of (id : Z) (t : Task) : complete (row_of id t) = true.
Proof. reflexivity. Qed.

Lemma exec_schema_ok (c : call) (db : Database) :
  schema_ok db ->
  schema_ok (fst (exec (plan (statement_of (op_of c))) (inputs c) db)).
Proof.
  intros (Hpop & Hpk & Hseq & Hdef).
  destruct c as [taskID authorID|t|authorID|label|id|id t|id];
    cbn [op_of statement_of plan stTasks stNewTask stTasksByAuthor
         stTasksByLabel stGetTaskByID stUpdateTask stDeleteTaskByID];
    try (cbn [exec fst]; now repeat split).
  - (* NewTask *)
    cbn [exec inputs].
    change (assign [VText (Title t); VText (Content t)] no_row
              (combine ["title"; "content"] [Param 1; Param 2])
              (blank_row db))
      with (Some (inserted db t)).
    cbv beta iota.
    assert (Hfree : id_taken db (c_id (inserted db t)) = false).
    { unfold id_taken. cbn [inserted c_id].
      destruct (existsb _ (tasks db)) eqn:E; [|reflexivity].
      apply existsb_exists in E as (r & Hr & E).
      apply Z.eqb_eq in E. specialize (Hseq r Hr). lia. }
    rewrite Hfree. cbn [fst].
    unfold schema_ok, populated, pk_unique, seq_ahead, defaults_set.
    cbn [with_tasks with_seq tasks tasks_id_seq defaults].
    repeat split.
    + rewrite forallb_app, Hpop. cbn [forallb]. unfold complete.
      cbn [inserted c_opened c_closed c_author_id c_assigned_id c_title
           c_content is_some].
      unfold defaults_set in Hdef. now rewrite Hdef.
    + rewrite map_app. cbn [map inserted c_id].
      apply NoDup_app;
        [exact Hpk | constructor; [intros [] | constructor] |].
      intros i Hi [<-|[]]. apply in_map_iff in Hi as (r & E & Hr).
      specialize (Hseq r Hr). lia.
    + intros r Hr. apply in_app_or in Hr as [Hr|[<-|[]]].
      * specialize (Hseq r Hr). lia.
      * cbn [inserted c_id]. lia.
    + exact Hdef.
  - (* UpdateTask *)
    cbn [exec]. rewrite update_rows_overwrite. cbn [fst].
    unfold schema_ok, populated, pk_unique, seq_ahead, defaults_set.
    cbn [with_tasks tasks tasks_id_seq defaults].
    repeat split.
    + apply forallb_forall. intros r Hr.
      apply in_map_iff in Hr as (r0 & <- & Hr0). unfold overwrite.
      destruct (c_id r0 =? id); [apply complete_row_of|].
      unfold populated in Hpop. rewrite forallb_forall in Hpop. auto.
    + now rewrite map_c_id_overwrite.
    + intros r Hr. apply in_map_iff in Hr as (r0 & <- & Hr0).
      specialize (Hseq r0 Hr0). unfold overwrite.
      destruct (c_id r0 =? id); exact Hseq.
    + exact Hdef.
  - (* DeleteTaskByID *)
    cbn [exec fst].
    unfold schema_ok, populated, pk_unique, seq_ahead, defaults_set.
    cbn [with_tasks tasks tasks_id_seq defaults].
    repeat split.
    + apply forallb_forall. intros r Hr. apply filter_In in Hr as [Hr _].
      unfold populated in Hpop. rewrite forallb_forall in Hpop. auto.
    + now apply NoDup_map_filter.
    + intros r Hr. apply filter_In in Hr as [Hr _]. now apply Hseq.
    + exact Hdef.
Qed.

(** Whatever the call and whatever becomes of its round trip, a store
    that met the schema conditions before meets them after: the
    hypotheses of the properties above are kept by the package itself. *)
Lemma after_schema_ok (c : call) (p : Pool) :
  schema_ok (data p) -> schema_ok (data (after c p)).
Proof.
  intros H. rewrite after_roundtrip, roundtrip_data.
  destruct (next_fault p); [| exact H |];
    (destruct (encode _ _); [exact H | now apply exec_schema_ok]).
Qed.

(** ** The properties on the sample stores *)

Lemma sample_pk_unique : pk_unique sample_db.
Proof. unfold pk_unique. cbn. distinct. Qed.

Lemma sample_labels_keyed : labels_keyed sample_db.
Proof. split; cbn; distinct. Qed.

Lemma sample_seq_ahead : seq_ahead sample_db.
Proof. intros r [<-|[<-|[<-|[]]]]; reflexivity. Qed.

Lemma sample_absent_9 : absent 9 sample_db.
Proof. intros r [<-|[<-|[<-|[]]]]; discriminate. Qed.

Lemma sample_schema_ok : schema_ok sample_db.
Proof.
  split; [reflexivity|]. split; [exact sample_pk_unique|].
  split; [exact sample_seq_ahead | reflexivity].
Qed.

Lemma Tasks_filtered_ascending_witness :
  exists ts,
    fst (Tasks 0 7 sample_pool) = (ts, None) /\
    data (snd (Tasks 0 7 sample_pool)) = data sample_pool /\
    Permutation ts (filter (wanted 0 7) (stored (data sample_pool))) /\
    (forall t, In t ts <->
               In t (stored (data sample_pool)) /\
               (0 = 0 \/ ID t = 0) /\ (7 = 0 \/ AuthorID t = 7)) /\
    ascending ts /\
    (0 = 0 -> 7 = 0 -> Permutation ts (stored (data sample_pool))) /\
    ((forall t, In t (stored (data sample_pool)) ->
                wanted 0 7 t = false) -> ts = []).
Proof.
  apply (Tasks_filtered_ascending 0 7 sample_pool);
    [reflexivity | reflexivity | reflexivity | reflexivity
    | exact sample_pk_unique].
Defined.

(** C1 as worded fails for an argument that does not fit four bytes: the
    store answers and meets the schema, and [Tasks 2147483648 0] returns
    the nil slice and the driver's encoding error where the claim has
    the empty result without error. *)
Lemma Tasks_refuses_wide_argument :
  next_fault sample_pool = Healthy /\
  populated (data sample_pool) /\
  pk_unique (data sample_pool) /\
  fst (Tasks 2147483648 0 sample_pool)
    = ([], Some (EncodeError
                   "2147483648 is greater than maximum value for Int4")) /\
  ~ Tasks_as_claimed 2147483648 0 sample_pool.
Proof.
  split; [reflexivity|]. split; [reflexivity|].
  split; [exact sample_pk_unique|]. split; [reflexivity|].
  intros (ts & Hrun & _). vm_compute in Hrun. discriminate Hrun.
Qed.

Lemma TasksByAuthor_literal_witness :
  exists ts,
    fst (TasksByAuthor 0 sample_pool) = (ts, None) /\
    data (snd (TasksByAuthor 0 sample_pool)) = data sample_pool /\
    Permutation ts (filter (written_by 0) (stored (data sample_pool))) /\
    (forall t, In t ts <->
               In t (stored (data sample_pool)) /\ AuthorID t = 0) /\
    ascending ts /\
    ((forall t, In t (stored (data sample_pool)) -> AuthorID t <> 0) ->
     ts = []).
Proof.
  apply (TasksByAuthor_literal 0 sample_pool);
    [reflexivity | reflexivity | exact sample_pk_unique].
Defined.

Lemma TasksByLabel_joined_witness :
  exists ts,
    fst (TasksByLabel "bug" sample_pool) = (ts, None) /\
    data (snd (TasksByLabel "bug" sample_pool)) = data sample_pool /\
    (forall t, In t ts <->
               exists r, In r (tasks (data sample_pool)) /\
                         labelled (data sample_pool) "bug" r /\
                         t = task_of r) /\
    StronglySorted (fun a b => ID a <= ID b) ts /\
    (NoDup (task_labels (data sample_pool)) -> NoDup ts /\ ascending ts).
Proof.
  apply (TasksByLabel_joined "bug" sample_pool);
    [reflexivity | reflexivity | exact sample_pk_unique
    | exact sample_labels_keyed].
Defined.

(** C2 as worded fails where the association is entered twice: the store
    meets the schema, task 1 is associated twice with "bug", and the
    result lists it twice. *)
Lemma TasksByLabel_repeats_task :
  next_fault twice_pool = Healthy /\
  populated (data twice_pool) /\
  pk_unique (data twice_pool) /\
  labels_keyed (data twice_pool) /\
  fst (TasksByLabel "bug" twice_pool)
    = ([task_of (nth 1 sample_rows (row_of 0 zeroTask));
        task_of (nth 1 sample_rows (row_of 0 zeroTask));
        task_of (nth 0 sample_rows (row_of 0 zeroTask))], None) /\
  ~ TasksByLabel_as_claimed "bug" twice_pool.
Proof.
  split; [reflexivity|]. split; [reflexivity|].
  split; [exact sample_pk_unique|]. split; [exact sample_labels_keyed|].
  split; [reflexivity|].
  intros (ts & Hrun & _ & _ & Hnd).
  vm_compute in Hrun. injection Hrun as <-.
  apply NoDup_cons_iff in Hnd as [Hrep _]. apply Hrep. now left.
Qed.

Lemma GetTaskByID_not_found_witness :
  fst (GetTaskByID 9 sample_pool) = (zeroTask, Some ErrNoRows) /\
  IsErrNoRows (snd (fst (GetTaskByID 9 sample_pool))) = true /\
  (forall (id' : Z) (q : Pool),
      next_fault q <> Healthy ->
      IsErrNoRows (snd (fst (GetTaskByID id' q))) = false) /\
  (forall (id' : Z) (q : Pool),
      IsErrNoRows (snd (fst (GetTaskByID id' q))) = true ->
      next_fault q = Healthy /\ absent id' (data q)).
Proof.
  apply (GetTaskByID_not_found 9 sample_pool);
    [reflexivity | exact sample_absent_9].
Defined.

Lemma GetTaskByID_error_zero_witness :
  snd (fst (GetTaskByID 2 null_pool))
    = Some (ScanError "cannot assign NULL") /\
  fst (fst (GetTaskByID 2 null_pool)) = zeroTask.
Proof.
  split; [reflexivity|].
  apply (GetTaskByID_error_zero 2 null_pool
           (fst (fst (GetTaskByID 2 null_pool)))
           (ScanError "cannot assign NULL")).
  reflexivity.
Defined.

(** The guard in [GetTaskByID] matters: on [null_pool] the variable [t]
    holds a half-decoded task when [Scan] fails. *)
Example Scan_leaves_partial_task :
  RowScan (fst (QueryRow stGetTaskByID [VInt 2] null_pool))
    taskDests zeroTask
  = ({| ID := 2; Opened := 20; Closed := 0; AuthorID := 0;
        AssignedID := 0; Title := ""; Content := "" |},
     Some (ScanError "cannot assign NULL")).
Proof. reflexivity. Qed.

Lemma NewTask_then_GetTaskByID_witness :
  exists id got,
    fst (NewTask sample_task sample_pool) = (id, None) /\
    absent id (data sample_pool) /\
    fst (GetTaskByID id (snd (NewTask sample_task sample_pool)))
      = (got, None) /\
    ID got = id /\ Title got = Title sample_task /\
    Content got = Content sample_task /\
    Opened got = or_zero (d_opened (defaults (data sample_pool))) /\
    Closed got = or_zero (d_closed (defaults (data sample_pool))) /\
    AuthorID got = or_zero (d_author_id (defaults (data sample_pool))) /\
    AssignedID got
      = or_zero (d_assigned_id (defaults (data sample_pool))) /\
    (forall t', Title t' = Title sample_task ->
                Content t' = Content sample_task ->
                NewTask t' sample_pool = NewTask sample_task sample_pool).
Proof.
  apply (NewTask_then_GetTaskByID sample_task sample_pool);
    [all_calm | exact sample_seq_ahead | reflexivity].
Defined.

Example NewTask_sample :
  fst (NewTask sample_task sample_pool) = (4, None) /\
  fst (GetTaskByID 4 (snd (NewTask sample_task sample_pool)))
  = ({| ID := 4; Opened := 1700000000; Closed := 0; AuthorID := 0;
        AssignedID := 0; Title := "T"; Content := "C" |}, None).
Proof. split; reflexivity. Qed.

Lemma UpdateTask_overwrites_witness :
  fst (UpdateTask 1 sample_task sample_pool) = None /\
  tasks (data (snd (UpdateTask 1 sample_task sample_pool)))
    = map (overwrite 1 sample_task) (tasks (data sample_pool)) /\
  map c_id (tasks (data (snd (UpdateTask 1 sample_task sample_pool))))
    = map c_id (tasks (data sample_pool)) /\
  fst (GetTaskByID 1 (snd (UpdateTask 1 sample_task sample_pool)))
    = ({| ID := 1;
          Opened := Opened sample_task;
          Closed := Closed sample_task;
          AuthorID := AuthorID sample_task;
          AssignedID := AssignedID sample_task;
          Title := Title sample_task;
          Content := Content sample_task |}, None).
Proof.
  apply (UpdateTask_overwrites 1 sample_task sample_pool); [all_calm|].
  exists (nth 1 sample_rows (row_of 0 zeroTask)).
  split; [right; left; reflexivity | reflexivity].
Defined.

Lemma UpdateTask_missing_id_witness :
  fst (UpdateTask 9 sample_task sample_pool) = None /\
  fst (Exec stUpdateTask (inputs (CallUpdateTask 9 sample_task))
         sample_pool)
    = ({| RowsAffected := 0 |}, None) /\
  data (snd (UpdateTask 9 sample_task sample_pool)) = data sample_pool.
Proof.
  apply (UpdateTask_missing_id 9 sample_task sample_pool);
    [reflexivity | exact sample_absent_9].
Defined.

Lemma DeleteTaskByID_idempotent_witness :
  let p1 := snd (DeleteTaskByID 1 sample_pool) in
  let p2 := snd (GetTaskByID 1 p1) in
  let p3 := snd (DeleteTaskByID 1 p2) in
  fst (DeleteTaskByID 1 sample_pool) = None /\
  (absent 1 (data sample_pool) -> data p1 = data sample_pool) /\
  (forall r, In r (tasks (data p1)) <->
             In r (tasks (data sample_pool)) /\ c_id r <> 1) /\
  fst (GetTaskByID 1 p1) = (zeroTask, Some ErrNoRows) /\
  fst (DeleteTaskByID 1 p2) = None /\
  data p3 = data p1.
Proof.
  apply (DeleteTaskByID_idempotent 1 sample_pool). all_calm.
Defined.

(** * Further properties of the package *)

(** ** Round trips under any fault *)

Lemma roundtrip_reject (st : statement) (args : list sqlval) (p : Pool)
    (msg : string) :
  next_fault p = Reject msg ->
  roundtrip st args p = (Failed (PgError msg), served st args p).
Proof. intros Hf. unfold roundtrip. now rewrite Hf. Qed.

Lemma roundtrip_select_any (st : statement) (q : select)
    (args : list sqlval) (p : Pool) :
  plan st = Select q ->
  roundtrip st args p
  = (match next_fault p with
     | Reject msg => Failed (PgError msg)
     | f =>
         match encode (param_types (plan st)) args with
         | Some e => Failed e
         | None =>
             match f with
             | Broken k msg =>
                 Answer (firstn k (run_select q args (data p))) 0
                   (Some (PgError msg))
             | _ => Answer (run_select q args (data p)) 0 None
             end
         end
     end,
     served st args p).
Proof.
  intros Hplan. unfold roundtrip.
  destruct (next_fault p); [| reflexivity |];
    (destruct (encode (param_types (plan st)) args); [reflexivity|]);
    rewrite Hplan; reflexivity.
Qed.

(** The three list methods have the same body; this is what it computes
    on an answer, whatever the fate of the round trip. *)
Lemma list_body_run (st : statement) (q : select) (args : list sqlval)
    (p : Pool) :
  plan st = Select q ->
  bind (Query st args) (fun x =>
    match x with
    | (rows, err) =>
        match err with
        | Some e => ret ([], Some e)
        | None => ret (scanTasks (pending rows) (closing_err rows) [])
        end
    end) p
  = (match next_fault p with
     | Reject msg => ([], Some (PgError msg))
     | f =>
         match encode (param_types (plan st)) args with
         | Some e => ([], Some e)
         | None =>
             match f with
             | Broken k msg =>
                 scanTasks (firstn k (run_select q args (data p)))
                   (Some (PgError msg)) []
             | _ => scanTasks (run_select q args (data p)) None []
             end
         end
     end,
     served st args p).
Proof.
  intros Hplan. unfold bind, Query, bind.
  rewrite (roundtrip_select_any st q args p Hplan).
  destruct (next_fault p); [| reflexivity |];
    (destruct (encode (param_types (plan st)) args); reflexivity).
Qed.

(** ** WHERE clauses on rows that may hold NULLs *)

Lemma where_Tasks_raw (taskID authorID : Z) (r : TaskRow) :
  satisfies [VInt taskID; VInt authorID]
    (And (wildcard 1 "id") (wildcard 2 "author_id")) (task_env r)
  = selected taskID authorID r.
Proof.
  unfold satisfies, wildcard, selected, authored, task_env, param; cbn.
  destruct (c_author_id r) as [a|]; cbn;
    destruct (taskID =? 0), (c_id r =? taskID), (authorID =? 0);
    try destruct (a =? authorID); reflexivity.
Qed.

Lemma where_TasksByAuthor_raw (authorID : Z) (r : TaskRow) :
  satisfies [VInt authorID] (Eq (Col "author_id") (Param 1)) (task_env r)
  = authored authorID r.
Proof.
  unfold satisfies, authored, task_env, param; cbn.
  destruct (c_author_id r) as [a|]; cbn;
    try destruct (a =? authorID); reflexivity.
Qed.

Lemma rows_Tasks (taskID authorID : Z) (db : Database) :
  run_select
    {| columns := task_columns; from := FromTasks;
       where_ := And (wildcard 1 "id") (wildcard 2 "author_id");
       order_by := Some "id" |}
    [VInt taskID; VInt authorID] db
  = map wire (answer_rows (CallTasks taskID authorID) db).
Proof.
  unfold run_select, answer_rows, by_id.
  cbn [from columns where_ order_by ordered].
  now rewrite (filter_ext _ _ (where_Tasks_raw taskID authorID)).
Qed.

Lemma rows_TasksByAuthor (authorID : Z) (db : Database) :
  run_select
    {| columns := task_columns; from := FromTasks;
       where_ := Eq (Col "author_id") (Param 1);
       order_by := Some "id" |}
    [VInt authorID] db
  = map wire (answer_rows (CallTasksByAuthor authorID) db).
Proof.
  unfold run_select, answer_rows, by_id.
  cbn [from columns where_ order_by ordered].
  now rewrite (filter_ext _ _ (where_TasksByAuthor_raw authorID)).
Qed.

Lemma rows_TasksByLabel (label : string) (db : Database) :
  run_select
    {| columns := map (fun c => "t." ++ c) task_columns;
       from := FromTasksJoinLabels
                 (Eq (Col "t.id") (Col "tl.task_id"))
                 (Eq (Col "tl.label_id") (Col "l.id"));
       where_ := Eq (Col "l.label") (Param 1);
       order_by := Some "t.id" |}
    [VText label] db
  = map wire (answer_rows (CallTasksByLabel label) db).
Proof.
  unfold run_select, answer_rows.
  cbn [from columns where_ order_by ordered].
  rewrite (filter_ext _ _ (where_TasksByLabel label)).
  now rewrite (map_ext _ _ wire_join), <- map_map.
Qed.

(** A list call on any pool, in terms of the rows it is answered with. *)
Lemma list_call_run (c : call) (p : Pool) :
  lists c = true ->
  answer c p
  = match next_fault p with
    | Reject msg => (Listed [], Some (PgError msg))
    | f =>
        match refusal c with
        | Some e => (Listed [], Some e)
        | None =>
            match f with
            | Broken k msg =>
                let (ts, err) :=
                  scanTasks (firstn k (map wire (answer_rows c (data p))))
                    (Some (PgError msg)) [] in
                (Listed ts, err)
            | _ =>
                let (ts, err) :=
                  scanTasks (map wire (answer_rows c (data p))) None [] in
                (Listed ts, err)
            end
        end
    end.
Proof.
  destruct c as [taskID authorID|t|authorID|label|id|id t|id];
    intros Hc; try discriminate Hc; cbn [answer]; unfold refusal;
    cbn [op_of statement_of inputs].
  - unfold Tasks. rewrite (list_body_run stTasks _ _ p eq_refl).
    rewrite rows_Tasks. cbn [fst].
    destruct (next_fault p); [| reflexivity |];
      (destruct (encode _ _); reflexivity).
  - unfold TasksByAuthor.
    rewrite (list_body_run stTasksByAuthor _ _ p eq_refl).
    rewrite rows_TasksByAuthor. cbn [fst].
    destruct (next_fault p); reflexivity.
  - unfold TasksByLabel.
    rewrite (list_body_run stTasksByLabel _ _ p eq_refl).
    rewrite rows_TasksByLabel. cbn [fst].
    destruct (next_fault p); reflexivity.
Qed.

Lemma refusal_Tasks (taskID authorID : Z) :
  refusal (CallTasks taskID authorID) = None <->
  in_int4 taskID /\ in_int4 authorID.
Proof. apply encode_Tasks. Qed.

Lemma refusal_others (c : call) :
  (forall taskID authorID, c <> CallTasks taskID authorID) ->
  refusal c = None.
Proof.
  destruct c as [taskID authorID|t|authorID|label|id|id t|id];
    intros H; try reflexivity.
  now contradiction (H taskID authorID).
Qed.

(** ** The scanning loop on any rows *)

Lemma Scan_incomplete (r : TaskRow) :
  complete r = false ->
  exists t msg, Scan (wire r) taskDests zeroTask = (t, Some (ScanError msg)).
Proof.
  destruct r as [i [o|] [c|] [a|] [g|] [t|] [b|]];
    cbn; intros H; try discriminate H; eauto.
Qed.

Lemma scanTasks_incomplete (rows : list TaskRow) (closing : option error) :
  forall acc,
    forallb complete rows = false ->
    exists msg,
      scanTasks (map wire rows) closing acc = ([], Some (ScanError msg)).
Proof.
  induction rows as [|r rows IH]; intros acc H; [discriminate H|].
  cbn [forallb] in H. cbn [map scanTasks].
  destruct (complete r) eqn:Hr.
  - rewrite (Scan_complete r Hr). apply IH. exact H.
  - destruct (Scan_incomplete r Hr) as (t & msg & E). rewrite E. eauto.
Qed.

Lemma scanTasks_success (rows : list TaskRow) (closing : option error)
    (acc ts : list Task) :
  scanTasks (map wire rows) closing acc = (ts, None) ->
  forallb complete rows = true /\ closing = None /\
  ts = (acc ++ map task_of rows)%list.
Proof.
  intros H. destruct (forallb complete rows) eqn:Hall.
  - rewrite (scanTasks_complete rows closing acc Hall) in H.
    inversion H. auto.
  - destruct (scanTasks_incomplete rows closing acc Hall) as [msg E].
    rewrite E in H. discriminate H.
Qed.

(** ** What every call does and never does *)

(** X1.  A reading call ([Tasks], [TasksByAuthor], [TasksByLabel],
    [GetTaskByID]) leaves the store exactly as it was, whatever becomes
    of its round trip. *)
Theorem reads_never_write (c : call) (p : Pool) :
  reads c = true -> data (after c p) = data p.
Proof.
  intros Hc. rewrite after_roundtrip, roundtrip_data.
  destruct c; try discriminate Hc;
    (destruct (next_fault p); [| reflexivity |];
     (destruct (encode _ _); reflexivity)).
Qed.

(** X2.  When the pool turns the request down, every method returns the
    pool's error as it is, beside the zero value of its result (nil
    slice, id 0, zero task), and the store is unchanged. *)
Theorem rejected_call (c : call) (p : Pool) (msg : string) :
  next_fault p = Reject msg ->
  answer c p = (blank c, Some (PgError msg)) /\
  data (after c p) = data p.
Proof.
  intros Hf. split.
  - destruct c as [taskID authorID|t|authorID|label|id|id t|id];
      cbn [answer blank].
    + unfold Tasks. rewrite (list_body_run stTasks _ _ p eq_refl), Hf.
      reflexivity.
    + unfold NewTask, bind, QueryRow, bind.
      rewrite (roundtrip_reject _ _ p msg Hf). reflexivity.
    + unfold TasksByAuthor.
      rewrite (list_body_run stTasksByAuthor _ _ p eq_refl), Hf.
      reflexivity.
    + unfold TasksByLabel.
      rewrite (list_body_run stTasksByLabel _ _ p eq_refl), Hf.
      reflexivity.
    + rewrite GetTaskByID_run, QueryRow_get, Hf. reflexivity.
    + unfold UpdateTask, bind, Exec, bind.
      rewrite (roundtrip_reject _ _ p msg Hf). reflexivity.
    + unfold DeleteTaskByID, bind, Exec, bind.
      rewrite (roundtrip_reject _ _ p msg Hf). reflexivity.
  - rewrite after_roundtrip, roundtrip_data, Hf. reflexivity.
Qed.

(** ** The list methods on any store *)

Lemma in_answer_rows (c : call) (db : Database) (r : TaskRow) :
  In r (answer_rows c db) -> In r (tasks db).
Proof.
  destruct c as [taskID authorID|t|authorID|label|id|id t|id];
    cbn [answer_rows]; intros H; try contradiction.
  - apply (Permutation_in _ (sort_by_perm _ _)) in H.
    now apply filter_In in H.
  - apply (Permutation_in _ (sort_by_perm _ _)) in H.
    now apply filter_In in H.
  - apply in_map_iff in H as ([[r' tl] l] & <- & H).
    apply (Permutation_in _ (sort_by_perm _ _)) in H.
    apply filter_In in H as [H _]. now apply in_cross in H.
  - now apply filter_In in H.
Qed.

Lemma list_call_success (c : call) (p : Pool) (ts : list Task) :
  answer c p = (Listed ts, None) ->
  lists c = true /\ next_fault p = Healthy /\ refusal c = None /\
  forallb complete (answer_rows c (data p)) = true /\
  ts = map task_of (answer_rows c (data p)).
Proof.
  intros H.
  assert (Hc : lists c = true).
  { destruct c as [taskID authorID|t|authorID|label|id|id t|id];
      try reflexivity; cbn [answer] in H.
    - destruct (fst (NewTask t p)); discriminate H.
    - destruct (fst (GetTaskByID id p)); discriminate H.
    - discriminate H.
    - discriminate H. }
  split; [exact Hc|]. rewrite (list_call_run c p Hc) in H.
  destruct (next_fault p) as [|msg|k msg]; [| discriminate H |];
    (destruct (refusal c) as [e|]; [discriminate H|]).
  - destruct (scanTasks _ None []) as [ts' err] eqn:E.
    inversion H; subst.
    apply scanTasks_success in E as (Hall & _ & ->). auto.
  - rewrite firstn_map in H.
    destruct (scanTasks _ (Some (PgError msg)) []) as [ts' err] eqn:E.
    inversion H; subst.
    apply scanTasks_success in E as (_ & E & _). discriminate E.
Qed.

(** X3.  Whatever a list method returns without error is made of stored
    tasks only: each element is a complete row of [tasks] read as a
    task, and the round trip met no fault. *)
Theorem listed_are_stored (c : call) (p : Pool) (ts : list Task) :
  answer c p = (Listed ts, None) ->
  next_fault p = Healthy /\
  forall t, In t ts ->
            exists r, In r (tasks (data p)) /\ complete r = true /\
                      t = task_of r.
Proof.
  intros H. apply list_call_success in H as (_ & Hf & _ & Hall & ->).
  split; [exact Hf|]. intros t Ht.
  apply in_map_iff in Ht as (r & <- & Hr). exists r.
  rewrite forallb_forall in Hall.
  split; [now apply (in_answer_rows c)|]. split; [now apply Hall|].
  reflexivity.
Qed.

(** X4.  When the answer stream breaks after [k] rows, a list method
    returns the first [k] tasks of what it would have returned on a
    healthy round trip, together with the error of the stream: the slice
    is not nil although the error is not nil. *)
Theorem broken_stream_partial_list (c : call) (p : Pool) (k : nat)
    (msg : string) (full : list Task) :
  next_fault p = Broken k msg ->
  answer c (mended p) = (Listed full, None) ->
  answer c p = (Listed (firstn k full), Some (PgError msg)).
Proof.
  intros Hf Hfull.
  apply list_call_success in Hfull as (Hc & _ & Href & Hall & ->).
  cbn [mended data] in *.
  rewrite (list_call_run c p Hc), Hf, Href, !firstn_map.
  rewrite scanTasks_complete.
  - reflexivity.
  - apply forallb_forall. intros r Hr.
    rewrite forallb_forall in Hall. apply Hall.
    rewrite <- (firstn_skipn k). apply in_or_app. now left.
Qed.

(** X5.  For arguments that fit the store's four-byte integer, one row
    that passes the filter of [Tasks] and holds a NULL makes the whole
    call fail: the result is the nil slice with the error of [Scan],
    whatever was decoded before. *)
Theorem Tasks_all_or_nothing (taskID authorID : Z) (p : Pool)
    (r : TaskRow) :
  in_int4 taskID ->
  in_int4 authorID ->
  next_fault p = Healthy ->
  In r (tasks (data p)) ->
  selected taskID authorID r = true ->
  complete r = false ->
  exists msg,
    fst (Tasks taskID authorID p) = ([], Some (ScanError msg)).
Proof.
  intros Hid Hau Hf Hr Hsel Hnull.
  pose proof (list_call_run (CallTasks taskID authorID) p eq_refl) as Hrun.
  rewrite Hf, (proj2 (refusal_Tasks taskID authorID) (conj Hid Hau))
    in Hrun.
  cbn [answer] in Hrun.
  destruct (scanTasks_incomplete
              (answer_rows (CallTasks taskID authorID) (data p)) None [])
    as [msg E].
  { destruct (forallb complete _) eqn:Hall; [|reflexivity].
    rewrite forallb_forall in Hall. rewrite <- Hnull. symmetry.
    apply Hall. cbn [answer_rows].
    apply (Permutation_in _ (Permutation_sym (sort_by_perm _ _))).
    apply filter_In. auto. }
  exists msg. rewrite E in Hrun.
  destruct (fst (Tasks taskID authorID p)) as [ts err].
  now inversion Hrun.
Qed.

Lemma list_call_ok_iff (c : call) (p : Pool) :
  lists c = true ->
  snd (answer c p) = None <->
  next_fault p = Healthy /\ refusal c = None /\
  forallb complete (answer_rows c (data p)) = true.
Proof.
  intros Hc. rewrite (list_call_run c p Hc). split.
  - destruct (next_fault p) as [|msg|k msg]; [| discriminate |];
      (destruct (refusal c) as [e|]; [discriminate|]).
    + destruct (forallb complete (answer_rows c (data p))) eqn:Hall;
        [auto|].
      destruct (scanTasks_incomplete _ None [] Hall) as [m E].
      rewrite E. discriminate.
    + rewrite firstn_map.
      destruct (forallb complete (firstn k (answer_rows c (data p))))
        eqn:Hall.
      * rewrite (scanTasks_complete _ _ _ Hall). discriminate.
      * destruct (scanTasks_incomplete _ (Some (PgError msg)) [] Hall)
          as [m E].
        rewrite E. discriminate.
  - intros (Hf & Href & Hall).
    rewrite Hf, Href, (scanTasks_complete _ _ _ Hall). reflexivity.
Qed.

Lemma by_id_complete (keep : TaskRow -> bool) (rows : list TaskRow) :
  forallb complete (by_id (filter keep rows)) = true <->
  (forall r, In r rows -> keep r = true -> complete r = true).
Proof.
  rewrite forallb_forall. split.
  - intros H r Hr Hk. apply H.
    apply (Permutation_in _ (Permutation_sym (sort_by_perm _ _))).
    apply filter_In. auto.
  - intros H r Hr. apply (Permutation_in _ (sort_by_perm _ _)) in Hr.
    apply filter_In in Hr as [Hr Hk]. auto.
Qed.

(** On rows where the SQL filter and the filter on tasks agree as far as
    the rows are complete, and no incomplete row passes the SQL filter,
    filtering rows is filtering stored tasks. *)
Lemma filter_stored (sel : TaskRow -> bool) (keep : Task -> bool)
    (rows : list TaskRow) :
  (forall r, complete r = true -> sel r = keep (task_of r)) ->
  (forall r, In r rows -> sel r = true -> complete r = true) ->
  map task_of (filter sel rows)
  = filter keep (map task_of (filter complete rows)).
Proof.
  intros Hagree Hsafe. induction rows as [|r rows IH]; [reflexivity|].
  cbn [filter].
  assert (IH' : map task_of (filter sel rows)
                = filter keep (map task_of (filter complete rows))).
  { apply IH. intros r' Hr'. apply Hsafe. now right. }
  destruct (complete r) eqn:Hr.
  - cbn [map filter]. rewrite <- (Hagree r Hr).
    destruct (sel r); cbn [map]; now rewrite IH'.
  - destruct (sel r) eqn:Hs; [|exact IH'].
    rewrite (Hsafe r (or_introl eq_refl) Hs) in Hr. discriminate Hr.
Qed.

Lemma selected_complete (taskID authorID : Z) (r : TaskRow) :
  complete r = true ->
  selected taskID authorID r = wanted taskID authorID (task_of r).
Proof.
  destruct r as [i [o|] [c|] [a|] [g|] [t|] [b|]];
    cbn; intros H; try discriminate H; reflexivity.
Qed.

Lemma authored_complete (authorID : Z) (r : TaskRow) :
  complete r = true ->
  authored authorID r = written_by authorID (task_of r).
Proof.
  destruct r as [i [o|] [c|] [a|] [g|] [t|] [b|]];
    cbn; intros H; try discriminate H; reflexivity.
Qed.

Lemma by_id_sorted (rows : list TaskRow) :
  StronglySorted (fun a b => ID a <= ID b) (map task_of (by_id rows)).
Proof.
  apply StronglySorted_map. cbn [task_of ID].
  apply (sort_by_sorted _ c_id). reflexivity.
Qed.

(** X6.  [Tasks] returns no error exactly when the round trip meets no
    fault, both arguments fit the store's four-byte integer, and every
    row that passes its WHERE clause is free of NULLs; rows the clause
    rejects may hold NULLs.  Whenever it returns no error, the result is
    the stored tasks that pass the filter, no more and no fewer,
    ascending by [ID]. *)
Theorem Tasks_success_iff (taskID authorID : Z) (p : Pool) :
  (snd (fst (Tasks taskID authorID p)) = None <->
   next_fault p = Healthy /\ in_int4 taskID /\ in_int4 authorID /\
   forall r, In r (tasks (data p)) ->
             selected taskID authorID r = true -> complete r = true) /\
  (forall ts,
      fst (Tasks taskID authorID p) = (ts, None) ->
      Permutation ts (filter (wanted taskID authorID) (stored (data p))) /\
      StronglySorted (fun a b => ID a <= ID b) ts).
Proof.
  pose proof (list_call_ok_iff (CallTasks taskID authorID) p eq_refl)
    as Hok.
  cbn [answer answer_rows] in Hok.
  rewrite by_id_complete, refusal_Tasks in Hok.
  split.
  - transitivity (next_fault p = Healthy /\
                  (in_int4 taskID /\ in_int4 authorID) /\
                  (forall r, In r (tasks (data p)) ->
                             selected taskID authorID r = true ->
                             complete r = true)); [|tauto].
    rewrite <- Hok.
    destruct (fst (Tasks taskID authorID p)) as [ts err]. reflexivity.
  - intros ts Hts.
    assert (Hans : answer (CallTasks taskID authorID) p
                   = (Listed ts, None)).
    { cbn [answer]. now rewrite Hts. }
    apply list_call_success in Hans as (_ & Hf & _ & Hall & ->).
    cbn [answer_rows] in *.
    pose proof (proj1 (by_id_complete _ _) Hall) as Hsafe.
    split; [|apply by_id_sorted].
    unfold stored.
    rewrite <- (filter_stored (selected taskID authorID)
                  (wanted taskID authorID) _
                  (selected_complete taskID authorID) Hsafe).
    apply Permutation_map, sort_by_perm.
Qed.

(** X7.  [TasksByAuthor] returns no error exactly when the round trip
    meets no fault and the rows of that author are free of NULLs: rows
    of other authors, and rows whose author is NULL, are never scanned.
    Whenever it returns no error, the result is the stored tasks of that
    author, no more and no fewer, ascending by [ID]. *)
Theorem TasksByAuthor_success_iff (authorID : Z) (p : Pool) :
  (snd (fst (TasksByAuthor authorID p)) = None <->
   next_fault p = Healthy /\
   forall r, In r (tasks (data p)) ->
             c_author_id r = Some authorID -> complete r = true) /\
  (forall ts,
      fst (TasksByAuthor authorID p) = (ts, None) ->
      Permutation ts (filter (written_by authorID) (stored (data p))) /\
      StronglySorted (fun a b => ID a <= ID b) ts).
Proof.
  pose proof (list_call_ok_iff (CallTasksByAuthor authorID) p eq_refl)
    as Hok.
  cbn [answer answer_rows] in Hok. rewrite by_id_complete in Hok.
  assert (Hauth : (forall r, In r (tasks (data p)) ->
                             authored authorID r = true ->
                             complete r = true) <->
                  (forall r, In r (tasks (data p)) ->
                             c_author_id r = Some authorID ->
                             complete r = true)).
  { split; intros H r Hr Ha; apply (H r Hr).
    - unfold authored. rewrite Ha. apply Z.eqb_refl.
    - unfold authored in Ha. destruct (c_author_id r) as [a|];
        [|discriminate Ha].
      apply Z.eqb_eq in Ha. now subst. }
  split.
  - rewrite <- Hauth.
    transitivity (next_fault p = Healthy /\
                  refusal (CallTasksByAuthor authorID) = None /\
                  (forall r, In r (tasks (data p)) ->
                             authored authorID r = true ->
                             complete r = true)).
    + rewrite <- Hok.
      destruct (fst (TasksByAuthor authorID p)) as [ts err]. reflexivity.
    + split; [intros (A & _ & B) | intros (A & B)]; repeat split; auto.
  - intros ts Hts.
    assert (Hans : answer (CallTasksByAuthor authorID) p
                   = (Listed ts, None)).
    { cbn [answer]. now rewrite Hts. }
    apply list_call_success in Hans as (_ & Hf & _ & Hall & ->).
    cbn [answer_rows] in *.
    pose proof (proj1 (by_id_complete _ _) Hall) as Hsafe.
    split; [|apply by_id_sorted].
    unfold stored.
    rewrite <- (filter_stored (authored authorID)
                  (written_by authorID) _
                  (authored_complete authorID) Hsafe).
    apply Permutation_map, sort_by_perm.
Qed.

(** X8.  With a non-zero author that fits the store's four-byte integer
    and no task id, [Tasks] is [TasksByAuthor]: on every pool, healthy or
    not, with or without NULLs, [Tasks 0 authorID] and
    [TasksByAuthor authorID] return the same slice and the same error. *)
Theorem Tasks_by_author_agree (authorID : Z) (p : Pool) :
  authorID <> 0 ->
  in_int4 authorID ->
  fst (Tasks 0 authorID p) = fst (TasksByAuthor authorID p).
Proof.
  intros Ha Hfit.
  assert (Hrows : answer_rows (CallTasks 0 authorID) (data p)
                  = answer_rows (CallTasksByAuthor authorID) (data p)).
  { cbn [answer_rows]. f_equal. apply filter_ext. intros r.
    unfold selected. apply Z.eqb_neq in Ha. now rewrite Ha. }
  pose proof (list_call_run (CallTasks 0 authorID) p eq_refl) as H1.
  pose proof (list_call_run (CallTasksByAuthor authorID) p eq_refl) as H2.
  rewrite (proj2 (refusal_Tasks 0 authorID) (conj eq_refl Hfit)) in H1.
  change (refusal (CallTasksByAuthor authorID)) with (@None error) in H2.
  rewrite Hrows, <- H2 in H1. cbn [answer] in H1.
  destruct (fst (Tasks 0 authorID p)) as [ts1 e1].
  destruct (fst (TasksByAuthor authorID p)) as [ts2 e2].
  now inversion H1.
Qed.

(** ** One task by id, two ways *)

Lemma with_id_pk (id : Z) (db : Database) :
  pk_unique db ->
  with_id id db = [] \/ exists r, with_id id db = [r].
Proof.
  unfold pk_unique, with_id. induction (tasks db) as [|r rows IH];
    cbn; intros Hnd; [now left|].
  apply NoDup_cons_iff in Hnd as [Hr Hnd].
  destruct (Z.eqb_spec (c_id r) id) as [E|E]; [|now apply IH].
  right. exists r. f_equal.
  assert (Habs : forall r', In r' rows -> c_id r' <> id).
  { intros r' Hr' E'. apply Hr. rewrite E, <- E'. now apply in_map. }
  clear -Habs. induction rows as [|r' rows IH]; [reflexivity|].
  cbn. destruct (Z.eqb_spec (c_id r') id) as [E|E].
  - exfalso. apply (Habs r'); [now left | exact E].
  - apply IH. intros r'' Hr''. apply Habs. now right.
Qed.

(** X9.  For a non-zero id that fits the store's four-byte integer, on a
    store where [id] is a key, [Tasks id 0] and [GetTaskByID id] tell
    the same story: the one task in a slice of
    length one where [GetTaskByID] finds it, the empty slice without
    error where [GetTaskByID] reports [ErrNoRows], and the same [Scan]
    error where the row cannot be decoded. *)
Theorem Tasks_by_id_agrees_with_GetTaskByID (id : Z) (p : Pool) :
  id <> 0 ->
  in_int4 id ->
  next_fault p = Healthy ->
  pk_unique (data p) ->
  fst (Tasks id 0 p) = as_list (fst (GetTaskByID id p)).
Proof.
  intros Hid Hfit Hf Hpk.
  assert (Hrows : answer_rows (CallTasks id 0) (data p)
                  = by_id (with_id id (data p))).
  { cbn [answer_rows]. unfold with_id. f_equal. apply filter_ext.
    intros r. unfold selected. apply Z.eqb_neq in Hid. rewrite Hid.
    cbn. apply andb_true_r. }
  pose proof (list_call_run (CallTasks id 0) p eq_refl) as Hrun.
  rewrite Hf, (proj2 (refusal_Tasks id 0) (conj Hfit eq_refl)), Hrows
    in Hrun.
  cbn [answer] in Hrun.
  rewrite GetTaskByID_run, QueryRow_get, Hf. cbn [fst].
  unfold RowScan. cbn [pending closing_err].
  destruct (with_id_pk id (data p) Hpk) as [E|[r E]]; rewrite E in *.
  - cbn in Hrun. destruct (fst (Tasks id 0 p)) as [ts err].
    now inversion Hrun.
  - cbn [by_id sort_by insert_by map scanTasks] in Hrun. cbn [map].
    pose proof (Scan_error (wire r) taskDests zeroTask) as Hne.
    destruct (Scan (wire r) taskDests zeroTask) as [t [e|]].
    + destruct (fst (Tasks id 0 p)) as [ts err].
      inversion Hrun; subst. destruct e; [discriminate Hne| | |];
        reflexivity.
    + cbn in Hrun. destruct (fst (Tasks id 0 p)) as [ts err].
      now inversion Hrun.
Qed.

(** X10.  Whatever [GetTaskByID id] returns without error is a stored
    task whose [ID] is [id]: a complete row of [tasks] with that id,
    read as a task, from a round trip that met no fault. *)
Theorem GetTaskByID_sound (id : Z) (p : Pool) (t : Task) :
  fst (GetTaskByID id p) = (t, None) ->
  next_fault p = Healthy /\ ID t = id /\
  exists r, In r (tasks (data p)) /\ c_id r = id /\
            complete r = true /\ t = task_of r.
Proof.
  rewrite GetTaskByID_run, QueryRow_get. cbn [fst]. unfold RowScan.
  destruct (next_fault p) as [|msg|k msg]; cbn [pending closing_err].
  - destruct (with_id id (data p)) as [|r others] eqn:Hrows;
      [discriminate|].
    assert (Hr : In r (with_id id (data p))) by (rewrite Hrows; now left).
    apply filter_In in Hr as [Hr Hid]. apply Z.eqb_eq in Hid.
    cbn [map]. destruct (complete r) eqn:Hc.
    + rewrite (Scan_complete r Hc). intros H. inversion H; subst.
      split; [reflexivity|]. split; [reflexivity|]. exists r. auto.
    + destruct (Scan_incomplete r Hc) as (t' & m & E). rewrite E.
      discriminate.
  - discriminate.
  - destruct (firstn k (map wire (with_id id (data p)))) as [|v vs];
      [discriminate|].
    destruct (Scan v taskDests zeroTask) as [t' [e|]]; discriminate.
Qed.

(** ** The INSERT of NewTask *)

Lemma id_taken_absent (db : Database) (id : Z) :
  id_taken db id = false <-> absent id db.
Proof.
  unfold id_taken, absent. split.
  - intros H r Hr E.
    assert (Hex : existsb (fun r => c_id r =? id) (tasks db) = true).
    { apply existsb_exists. exists r. split; [exact Hr|].
      now apply Z.eqb_eq. }
    rewrite Hex in H. discriminate H.
  - intros H. destruct (existsb _ (tasks db)) eqn:E; [|reflexivity].
    apply existsb_exists in E as (r & Hr & E). apply Z.eqb_eq in E.
    exfalso. now apply (H r).
Qed.

Lemma exec_insert (t : Task) (db : Database) :
  exec (plan stNewTask) (inputs (CallNewTask t)) db
  = if id_taken db (tasks_id_seq db)
    then (with_seq db (tasks_id_seq db + 1),
          Refused "duplicate key value violates unique constraint")
    else (with_tasks (with_seq db (tasks_id_seq db + 1))
            (tasks db ++ [inserted db t]),
          Done [[VInt (tasks_id_seq db)]] 1).
Proof. reflexivity. Qed.

(** ** What each call can change *)

Lemma exec_effect (c : call) (db : Database) :
  fst (exec (plan (statement_of (op_of c))) (inputs c) db) = effect c db.
Proof.
  destruct c as [taskID authorID|t|authorID|label|id|id t|id];
    try reflexivity.
  - cbn [op_of statement_of effect]. rewrite exec_insert.
    destruct (id_taken db (tasks_id_seq db)); reflexivity.
  - cbn [op_of statement_of plan stUpdateTask exec effect].
    now rewrite update_rows_overwrite.
  - cbn [op_of statement_of plan stDeleteTaskByID exec effect inputs fst].
    f_equal. apply filter_ext. intros r.
    now rewrite (where_id [VInt id] 1 id r eq_refl).
Qed.

(** The store after a call: untouched when the request was turned down,
    the effect of the statement otherwise. *)
Lemma data_after (c : call) (p : Pool) :
  data (after c p)
  = match next_fault p with
    | Reject _ => data p
    | _ => effect c (data p)
    end.
Proof.
  rewrite after_roundtrip, roundtrip_data, exec_effect.
  destruct (next_fault p); [| reflexivity |];
    (destruct c; try reflexivity; destruct (encode _ _); reflexivity).
Qed.

Lemma seq_after (c : call) (p : Pool) :
  tasks_id_seq (data p) <= tasks_id_seq (data (after c p)).
Proof.
  rewrite data_after.
  destruct (next_fault p); [| lia |];
    (destruct c as [taskID authorID|t|authorID|label|id|id t|id];
     cbn [effect]; try lia;
     destruct (id_taken (data p) (tasks_id_seq (data p)));
     cbn; lia).
Qed.

(** ** NewTask, continued *)

(** What [NewTask] returns on any pool. *)
Lemma NewTask_run (t : Task) (p : Pool) :
  fst (NewTask t p)
  = match next_fault p with
    | Healthy =>
        if id_taken (data p) (tasks_id_seq (data p))
        then (0, Some (PgError
                "duplicate key value violates unique constraint"))
        else (tasks_id_seq (data p), None)
    | Reject msg => (0, Some (PgError msg))
    | Broken k msg =>
        if id_taken (data p) (tasks_id_seq (data p))
        then (0, Some (PgError
                "duplicate key value violates unique constraint"))
        else (match k with
              | O => 0
              | S _ => tasks_id_seq (data p)
              end, Some (PgError msg))
    end.
Proof.
  unfold NewTask, bind, QueryRow, bind, roundtrip.
  change [VText (Title t); VText (Content t)]
    with (inputs (CallNewTask t)).
  destruct (next_fault p) as [|msg|k msg]; [| reflexivity |];
    unbounded; rewrite exec_insert;
    destruct (id_taken (data p) (tasks_id_seq (data p)));
    try reflexivity.
  destruct k; reflexivity.
Qed.

(** X11.  [NewTask] returns no error exactly when the round trip meets
    no fault and the id the sequence hands out is not in use.  It then
    returns that id, the store holds one more row, at the end, with that
    id, the given title and content and the defaults, and the sequence
    has moved on by one. *)
Theorem NewTask_success_iff (t : Task) (p : Pool) :
  (snd (fst (NewTask t p)) = None <->
   next_fault p = Healthy /\ absent (tasks_id_seq (data p)) (data p)) /\
  (snd (fst (NewTask t p)) = None ->
   fst (fst (NewTask t p)) = tasks_id_seq (data p) /\
   tasks (data (snd (NewTask t p)))
     = (tasks (data p) ++ [inserted (data p) t])%list /\
   tasks_id_seq (data (snd (NewTask t p))) = tasks_id_seq (data p) + 1).
Proof.
  rewrite <- id_taken_absent, NewTask_run.
  change (snd (NewTask t p)) with (after (CallNewTask t) p).
  rewrite data_after. cbn [effect].
  destruct (next_fault p) as [|msg|k msg];
    destruct (id_taken (data p) (tasks_id_seq (data p))); cbn [fst snd];
    (split; [split; [try discriminate; auto
                    | intros [Hf Ht]; try discriminate Hf;
                      try discriminate Ht; reflexivity]
            | try discriminate; intros _; repeat split]).
Qed.

(** ** The other tables *)

(** X12.  No call ever changes [labels], [task_labels] or the schema
    defaults, and no call ever sets the id sequence back. *)
Theorem calls_keep_other_tables (c : call) (p : Pool) :
  labels (data (after c p)) = labels (data p) /\
  task_labels (data (after c p)) = task_labels (data p) /\
  defaults (data (after c p)) = defaults (data p) /\
  tasks_id_seq (data p) <= tasks_id_seq (data (after c p)).
Proof.
  split; [|split; [|split; [|apply seq_after]]];
    rewrite data_after;
    (destruct (next_fault p); [| reflexivity |];
     (destruct c as [taskID authorID|t|authorID|label|id|id t|id];
      cbn [effect]; try reflexivity;
      destruct (id_taken (data p) (tasks_id_seq (data p)));
      reflexivity)).
Qed.

(** ** What the writing calls leave alone *)

Lemma in_overwrite_other (id : Z) (t : Task) (rows : list TaskRow)
    (r : TaskRow) :
  c_id r <> id -> (In r (map (overwrite id t) rows) <-> In r rows).
Proof.
  intros Hr. rewrite in_map_iff. split.
  - intros (r0 & E & H0). unfold overwrite in E.
    destruct (Z.eqb_spec (c_id r0) id) as [E0|E0]; [|now subst].
    subst r. cbn [row_of c_id] in Hr. contradiction.
  - intros H. exists r. split; [|exact H]. unfold overwrite.
    destruct (Z.eqb_spec (c_id r) id); [contradiction | reflexivity].
Qed.

(** X13.  Whatever becomes of its round trip, [UpdateTask id] neither
    adds nor removes nor reorders rows and changes no id: the ids in
    [tasks] are the same list before and after, and the rows with
    another id are the same rows. *)
Theorem UpdateTask_keeps_ids (id : Z) (t : Task) (p : Pool) :
  map c_id (tasks (data (snd (UpdateTask id t p))))
    = map c_id (tasks (data p)) /\
  (forall r, c_id r <> id ->
             (In r (tasks (data (snd (UpdateTask id t p)))) <->
              In r (tasks (data p)))).
Proof.
  change (snd (UpdateTask id t p)) with (after (CallUpdateTask id t) p).
  rewrite data_after.
  destruct (next_fault p); cbn [effect with_tasks tasks];
    (split; [try apply map_c_id_overwrite; reflexivity|]);
    intros r Hr; try reflexivity; now apply in_overwrite_other.
Qed.

(** X14.  Whatever becomes of its round trip, [DeleteTaskByID id] removes
    nothing but rows with that id and adds nothing: every row left was
    there before, and every row with another id is still there. *)
Theorem DeleteTaskByID_removes_only_id (id : Z) (p : Pool) :
  (forall r, In r (tasks (data (snd (DeleteTaskByID id p)))) ->
             In r (tasks (data p))) /\
  (forall r, In r (tasks (data p)) -> c_id r <> id ->
             In r (tasks (data (snd (DeleteTaskByID id p))))).
Proof.
  change (snd (DeleteTaskByID id p))
    with (after (CallDeleteTaskByID id) p).
  rewrite data_after.
  destruct (next_fault p); cbn [effect with_tasks tasks]; split;
    intros r Hr; try exact Hr; try (intros _; exact Hr).
  - now apply filter_In in Hr.
  - intros Hid. apply filter_In. split; [exact Hr|].
    now apply negb_true_iff, Z.eqb_neq.
  - now apply filter_In in Hr.
  - intros Hid. apply filter_In. split; [exact Hr|].
    now apply negb_true_iff, Z.eqb_neq.
Qed.

(** X15.  Whatever becomes of its round trip, [NewTask] changes and
    removes no existing row: the rows of [tasks] afterwards are the rows
    before, followed by at most the one new row. *)
Theorem NewTask_only_appends (t : Task) (p : Pool) :
  tasks (data (snd (NewTask t p))) = tasks (data p) \/
  tasks (data (snd (NewTask t p)))
    = (tasks (data p) ++ [inserted (data p) t])%list.
Proof.
  change (snd (NewTask t p)) with (after (CallNewTask t) p).
  rewrite data_after.
  destruct (next_fault p); cbn [effect]; try (now left);
    destruct (id_taken (data p) (tasks_id_seq (data p)));
    cbn; auto.
Qed.

(** ** Calls one after the other *)

Lemma faults_after (c : call) (p : Pool) :
  faults (after c p) = List.tl (faults p).
Proof.
  rewrite after_roundtrip. unfold roundtrip.
  destruct (next_fault p); [| reflexivity |];
    (destruct (encode _ _); [reflexivity|]);
    destruct (exec _ _ (data p)) as [db' [rows done|why]]; reflexivity.
Qed.

Lemma UpdateTask_healthy (id : Z) (t : Task) (p : Pool) :
  next_fault p = Healthy ->
  fst (UpdateTask id t p) = None /\
  data (snd (UpdateTask id t p))
    = with_tasks (data p) (map (overwrite id t) (tasks (data p))).
Proof.
  intros Hf. pose proof (Exec_update id t p Hf) as Hexec.
  unfold UpdateTask, bind. cbn [inputs] in Hexec. rewrite Hexec.
  split; reflexivity.
Qed.

Lemma overwrite_twice (id : Z) (a b : Task) (rows : list TaskRow) :
  map (overwrite id b) (map (overwrite id a) rows)
  = map (overwrite id b) rows.
Proof.
  rewrite map_map. apply map_ext. intros r. unfold overwrite.
  destruct (Z.eqb_spec (c_id r) id) as [E|E].
  - cbn [row_of c_id]. now rewrite E, Z.eqb_refl.
  - destruct (Z.eqb_spec (c_id r) id); [contradiction | reflexivity].
Qed.

(** X16.  The last update wins, and nothing of the one before remains:
    while the store answers, [UpdateTask id a] followed by
    [UpdateTask id b] leaves the store as [UpdateTask id b] alone does.
    In particular repeating an update changes nothing. *)
Theorem UpdateTask_last_wins (id : Z) (a b : Task) (p : Pool) :
  calm 2 p ->
  fst (UpdateTask id a p) = None /\
  fst (UpdateTask id b (snd (UpdateTask id a p))) = None /\
  data (snd (UpdateTask id b (snd (UpdateTask id a p))))
    = data (snd (UpdateTask id b p)).
Proof.
  intros Hcalm.
  pose proof (calm_next _ _ Hcalm) as Hf.
  assert (Hf1 : next_fault (snd (UpdateTask id a p)) = Healthy).
  { eapply calm_next, calm_tl; [exact Hcalm|].
    apply (faults_after (CallUpdateTask id a)). }
  destruct (UpdateTask_healthy id a p Hf) as [Ha Da].
  destruct (UpdateTask_healthy id b p Hf) as [_ Db].
  destruct (UpdateTask_healthy id b _ Hf1) as [Hb Dab].
  split; [exact Ha|]. split; [exact Hb|].
  rewrite Dab, Db, Da. cbn [with_tasks tasks].
  now rewrite overwrite_twice.
Qed.

Lemma GetTaskByID_depends (id : Z) (p q : Pool) :
  next_fault p = next_fault q ->
  with_id id (data p) = with_id id (data q) ->
  fst (GetTaskByID id p) = fst (GetTaskByID id q).
Proof.
  intros Hf Hrows. rewrite !GetTaskByID_run, !QueryRow_get. cbn [fst].
  now rewrite Hf, Hrows.
Qed.

Lemma with_id_effect_other (id id' : Z) (c : call) (db : Database) :
  id <> id' ->
  (exists t, c = CallUpdateTask id' t) \/ c = CallDeleteTaskByID id' ->
  with_id id (effect c db) = with_id id db.
Proof.
  intros Hne [[t ->]| ->]; unfold with_id; cbn [effect with_tasks tasks].
  - induction (tasks db) as [|r rows IH]; [reflexivity|].
    cbn [map filter]. rewrite IH. unfold overwrite.
    destruct (Z.eqb_spec (c_id r) id') as [E|E]; [|reflexivity].
    cbn [row_of c_id].
    destruct (Z.eqb_spec (c_id r) id); [congruence | reflexivity].
  - induction (tasks db) as [|r rows IH]; [reflexivity|].
    cbn [filter]. destruct (Z.eqb_spec (c_id r) id') as [E|E];
      cbn [negb filter].
    + destruct (Z.eqb_spec (c_id r) id); [congruence | exact IH].
    + now rewrite IH.
Qed.

(** X17.  Updating or deleting one task does not change what
    [GetTaskByID] returns for a task with another id. *)
Theorem other_ids_unaffected (id id' : Z) (t : Task) (p : Pool) :
  id <> id' ->
  calm 2 p ->
  fst (GetTaskByID id (snd (UpdateTask id' t p)))
    = fst (GetTaskByID id p) /\
  fst (GetTaskByID id (snd (DeleteTaskByID id' p)))
    = fst (GetTaskByID id p).
Proof.
  intros Hne Hcalm. pose proof (calm_next _ _ Hcalm) as Hf.
  split.
  - change (snd (UpdateTask id' t p))
      with (after (CallUpdateTask id' t) p).
    apply GetTaskByID_depends.
    + rewrite Hf. eapply calm_next, calm_tl; [exact Hcalm|].
      apply faults_after.
    + rewrite data_after, Hf.
      apply (with_id_effect_other id id'); eauto.
  - change (snd (DeleteTaskByID id' p))
      with (after (CallDeleteTaskByID id') p).
    apply GetTaskByID_depends.
    + rewrite Hf. eapply calm_next, calm_tl; [exact Hcalm|].
      apply faults_after.
    + rewrite data_after, Hf.
      apply (with_id_effect_other id id'); auto.
Qed.

(** X18.  Once [DeleteTaskByID id] has returned no error, no list method
    returns a task with that id, whatever its filter: not [Tasks], not
    [TasksByAuthor], and not [TasksByLabel] either, although the rows of
    [task_labels] that pointed at the task are still there. *)
Theorem deleted_never_listed (id : Z) (p : Pool) (c : call)
    (ts : list Task) :
  fst (DeleteTaskByID id p) = None ->
  answer c (snd (DeleteTaskByID id p)) = (Listed ts, None) ->
  forall t, In t ts -> ID t <> id.
Proof.
  intros Hdel Hans t Ht.
  assert (Hf : next_fault p = Healthy).
  { destruct (next_fault p) as [|msg|k msg] eqn:E; [reflexivity| |].
    - unfold DeleteTaskByID, bind, Exec, bind in Hdel.
      rewrite (roundtrip_reject _ _ p msg E) in Hdel. discriminate Hdel.
    - unfold DeleteTaskByID, bind, Exec, bind, roundtrip in Hdel.
      rewrite E in Hdel. cbn in Hdel. discriminate Hdel. }
  apply list_call_success in Hans as (_ & _ & _ & Hall & ->).
  apply in_map_iff in Ht as (r & <- & Hr).
  apply in_answer_rows in Hr.
  change (snd (DeleteTaskByID id p))
    with (after (CallDeleteTaskByID id) p) in Hr.
  rewrite data_after, Hf in Hr. cbn [effect with_tasks tasks] in Hr.
  apply filter_In in Hr as [_ Hr]. cbn [task_of ID].
  now apply negb_true_iff, Z.eqb_neq in Hr.
Qed.

Lemma seq_run (cs : list call) :
  forall p, tasks_id_seq (data p) <= tasks_id_seq (data (run cs p)).
Proof.
  induction cs as [|c cs IH]; intros p; cbn [run]; [lia|].
  pose proof (seq_after c p). specialize (IH (after c p)). lia.
Qed.

(** X19.  Ids are never handed out twice: of two calls of [NewTask] that
    return no error, the later returns the greater id, whatever calls
    were made in between and whatever became of them, deletions
    included. *)
Theorem NewTask_ids_increase (t1 t2 : Task) (cs : list call) (p : Pool)
    (id1 id2 : Z) :
  fst (NewTask t1 p) = (id1, None) ->
  fst (NewTask t2 (run cs (snd (NewTask t1 p)))) = (id2, None) ->
  id1 < id2.
Proof.
  intros H1 H2.
  set (p1 := snd (NewTask t1 p)) in *.
  assert (Hseq1 : tasks_id_seq (data p1) = id1 + 1).
  { subst p1. change (snd (NewTask t1 p)) with (after (CallNewTask t1) p).
    rewrite data_after. rewrite NewTask_run in H1.
    destruct (next_fault p) as [|msg|k msg]; try discriminate H1;
      cbn [effect];
      destruct (id_taken (data p) (tasks_id_seq (data p)));
      try discriminate H1.
    now inversion H1. }
  assert (Hid2 : id2 = tasks_id_seq (data (run cs p1))).
  { rewrite NewTask_run in H2.
    destruct (next_fault (run cs p1)) as [|msg|k msg];
      try discriminate H2;
      destruct (id_taken _ _); try discriminate H2.
    now inversion H2. }
  pose proof (seq_run cs p1). lia.
Qed.

(** X20.  Where no task is associated with a label of the given name
    (the name is unknown, or only rows of [task_labels] that point at no
    task carry it), [TasksByLabel] returns the empty slice and no
    error, whatever NULLs the tasks hold. *)
Theorem TasksByLabel_none (label : string) (p : Pool) :
  next_fault p = Healthy ->
  (forall r, In r (tasks (data p)) -> ~ labelled (data p) label r) ->
  fst (TasksByLabel label p) = ([], None).
Proof.
  intros Hf Hnone.
  pose proof (list_call_run (CallTasksByLabel label) p eq_refl) as Hrun.
  rewrite Hf in Hrun. cbn [answer answer_rows] in Hrun.
  assert (Hempty : filter (linked label) (cross (data p)) = []).
  { destruct (filter (linked label) (cross (data p)))
      as [|[[r tl] l] js] eqn:E; [reflexivity|].
    assert (Hj : In (r, tl, l) (filter (linked label) (cross (data p))))
      by (rewrite E; now left).
    apply filter_In in Hj as [Hj Hl].
    apply in_cross in Hj as (Hr & Htl & Hlab).
    apply linked_iff in Hl as (A & B & C).
    exfalso. apply (Hnone r Hr). exists tl, l. auto. }
  rewrite Hempty in Hrun. cbn in Hrun.
  destruct (fst (TasksByLabel label p)) as [ts err]. now inversion Hrun.
Qed.

(** X21.  The schema conditions (no NULL in [tasks], [id] a key, the
    sequence ahead of the ids in use, defaults set) survive any sequence
    of calls, whatever becomes of each round trip. *)
Theorem run_keeps_schema (cs : list call) (p : Pool) :
  schema_ok (data p) -> schema_ok (data (run cs p)).
Proof.
  revert p. induction cs as [|c cs IH]; intros p H; cbn [run];
    [exact H|].
  apply IH. now apply after_schema_ok.
Qed.

(** ** The constructor *)

(** [New] returns a storage or an error, never both and never neither. *)
Lemma New_storage_or_error (Connect : string -> Pool + error)
    (constr : string) :
  (exists s, connect.New Connect constr = (Some s, None)) \/
  (exists err, connect.New Connect constr = (None, Some err)).
Proof.
  unfold connect.New. destruct (Connect constr) as [pool|err]; eauto.
Qed.

(** ** The further properties on the sample stores *)

Lemma reads_never_write_witness :
  reads (CallTasksByLabel "bug") = true /\
  data (after (CallTasksByLabel "bug") breaking_pool)
    = data breaking_pool.
Proof.
  split; [reflexivity|].
  apply (reads_never_write (CallTasksByLabel "bug") breaking_pool).
  reflexivity.
Defined.

Lemma rejected_call_witness :
  next_fault refusing_pool = Reject "no connection" /\
  answer (CallNewTask sample_task) refusing_pool
    = (blank (CallNewTask sample_task),
       Some (PgError "no connection")) /\
  data (after (CallNewTask sample_task) refusing_pool)
    = data refusing_pool.
Proof.
  split; [reflexivity|].
  apply (rejected_call (CallNewTask sample_task) refusing_pool
           "no connection").
  reflexivity.
Defined.

Lemma listed_are_stored_witness :
  answer (CallTasksByAuthor 7) ragged_pool
    = (Listed (fst (fst (TasksByAuthor 7 ragged_pool))), None) /\
  next_fault ragged_pool = Healthy /\
  forall t, In t (fst (fst (TasksByAuthor 7 ragged_pool))) ->
            exists r, In r (tasks (data ragged_pool)) /\
                      complete r = true /\ t = task_of r.
Proof.
  split; [reflexivity|].
  apply (listed_are_stored (CallTasksByAuthor 7) ragged_pool).
  reflexivity.
Defined.

Lemma broken_stream_partial_list_witness :
  next_fault breaking_pool = Broken 1 "connection reset" /\
  answer (CallTasks 0 0) (mended breaking_pool)
    = (Listed (fst (fst (Tasks 0 0 sample_pool))), None) /\
  answer (CallTasks 0 0) breaking_pool
    = (Listed (firstn 1 (fst (fst (Tasks 0 0 sample_pool)))),
       Some (PgError "connection reset")).
Proof.
  split; [reflexivity|]. split; [reflexivity|].
  apply (broken_stream_partial_list (CallTasks 0 0) breaking_pool 1
           "connection reset" (fst (fst (Tasks 0 0 sample_pool))));
    reflexivity.
Defined.

Lemma Tasks_all_or_nothing_witness :
  exists msg, fst (Tasks 0 0 ragged_pool) = ([], Some (ScanError msg)).
Proof.
  apply (Tasks_all_or_nothing 0 0 ragged_pool
           (nth 3 (tasks ragged_db) (row_of 0 zeroTask)));
    [reflexivity | reflexivity | reflexivity | cbn; tauto | reflexivity
    | reflexivity].
Defined.

Lemma Tasks_by_author_agree_witness :
  7 <> 0 /\ in_int4 7 /\
  fst (Tasks 0 7 ragged_pool) = fst (TasksByAuthor 7 ragged_pool).
Proof.
  split; [discriminate|]. split; [reflexivity|].
  apply (Tasks_by_author_agree 7 ragged_pool);
    [discriminate | reflexivity].
Defined.

Lemma Tasks_by_id_agrees_with_GetTaskByID_witness :
  fst (Tasks 1 0 sample_pool) = as_list (fst (GetTaskByID 1 sample_pool)).
Proof.
  apply (Tasks_by_id_agrees_with_GetTaskByID 1 sample_pool);
    [discriminate | reflexivity | reflexivity | exact sample_pk_unique].
Defined.

Lemma GetTaskByID_sound_witness :
  fst (GetTaskByID 3 sample_pool)
    = (fst (fst (GetTaskByID 3 sample_pool)), None) /\
  next_fault sample_pool = Healthy /\
  ID (fst (fst (GetTaskByID 3 sample_pool))) = 3 /\
  exists r, In r (tasks (data sample_pool)) /\ c_id r = 3 /\
            complete r = true /\
            fst (fst (GetTaskByID 3 sample_pool)) = task_of r.
Proof.
  split; [reflexivity|].
  apply (GetTaskByID_sound 3 sample_pool). reflexivity.
Defined.

Lemma UpdateTask_last_wins_witness :
  fst (UpdateTask 1 zeroTask sample_pool) = None /\
  fst (UpdateTask 1 sample_task
         (snd (UpdateTask 1 zeroTask sample_pool))) = None /\
  data (snd (UpdateTask 1 sample_task
               (snd (UpdateTask 1 zeroTask sample_pool))))
    = data (snd (UpdateTask 1 sample_task sample_pool)).
Proof.
  apply (UpdateTask_last_wins 1 zeroTask sample_task sample_pool).
  all_calm.
Defined.

Lemma other_ids_unaffected_witness :
  fst (GetTaskByID 1 (snd (UpdateTask 3 sample_task sample_pool)))
    = fst (GetTaskByID 1 sample_pool) /\
  fst (GetTaskByID 1 (snd (DeleteTaskByID 3 sample_pool)))
    = fst (GetTaskByID 1 sample_pool).
Proof.
  apply (other_ids_unaffected 1 3 sample_task sample_pool);
    [discriminate | all_calm].
Defined.

Lemma deleted_never_listed_witness :
  fst (DeleteTaskByID 1 sample_pool) = None /\
  forall t,
    In t (fst (fst (TasksByLabel "bug"
                      (snd (DeleteTaskByID 1 sample_pool))))) ->
    ID t <> 1.
Proof.
  split; [reflexivity|].
  apply (deleted_never_listed 1 sample_pool (CallTasksByLabel "bug"));
    reflexivity.
Defined.

Lemma NewTask_ids_increase_witness :
  fst (NewTask sample_task sample_pool) = (4, None) /\
  fst (NewTask zeroTask
         (run [CallDeleteTaskByID 4; CallTasks 0 0]
            (snd (NewTask sample_task sample_pool)))) = (5, None) /\
  4 < 5.
Proof.
  split; [reflexivity|]. split; [reflexivity|].
  apply (NewTask_ids_increase sample_task zeroTask
           [CallDeleteTaskByID 4; CallTasks 0 0] sample_pool 4 5);
    reflexivity.
Defined.

Lemma TasksByLabel_none_witness :
  fst (TasksByLabel "wontfix" sample_pool) = ([], None).
Proof.
  apply (TasksByLabel_none "wontfix" sample_pool); [reflexivity|].
  intros r _ (tl & l & _ & Hl & _ & _ & Hname).
  destruct Hl as [<-|[<-|[]]]; discriminate Hname.
Defined.

Lemma run_keeps_schema_witness :
  schema_ok
    (data (run [CallNewTask sample_task; CallDeleteTaskByID 1;
                CallUpdateTask 2 sample_task] refusing_pool)).
Proof.
  apply (run_keeps_schema _ refusing_pool). exact sample_schema_ok.
Defined.
